(** * Clinic queue management (skeletonCodeAssessment2.py)

    A shallow embedding of the priority model, the per-doctor heap queue,
    the routing policy and the assignment step of the queue management
    system, together with the properties its specification states.

    Conventions of the embedding:
    - a naive [datetime] is its number of microseconds on a fixed time line
      that starts at a midnight, a [timedelta] a signed number of
      microseconds;
    - a Python [float] is the rational number it denotes: the value of
      [total_seconds()] is the IEEE 754 double nearest to the number of
      seconds, [binary64] below;
    - Python integers (and the integral floats the priority formula
      produces, which stay below [2 ** 53], where float arithmetic on them
      is exact) are [Z]; strings are [string];
    - the wall clock, the random generator and [uuid.uuid4] are read from an
      explicit [World], which also collects what [send_notification] emits;
    - a Python exception is an [outcome] that is not [Return]. *)

From Stdlib Require Import ZArith QArith Qround Qpower Lia Lqa Sorting.Sorted.
From stdpp Require Import base option list strings gmap pretty.
From Equations Require Import Equations.

(** ** Python values and control *)

Inductive exn : Type :=
| IndexError
| ValueError
| TypeError
| NoAvailableDoctor.
(* [NoAvailableDoctor] is the condition the specification names for a routing
   that finds no candidate; the others are the built-in exceptions the
   modelled code can raise. *)

Inductive outcome (A : Type) : Type :=
| Return (a : A)
| Raise (e : exn).
Arguments Return {A} a.
Arguments Raise {A} e.

#[global] Instance outcome_ret : MRet outcome := @Return.
#[global] Instance outcome_bind : MBind outcome := λ A B f m,
  match m with
  | Return a => f a
  | Raise e => Raise e
  end.

Definition datetime := Z.
Definition timedelta := Z.

(** *** IEEE 754 doubles

    A double is a 53-bit significand times a power of two. The exponent
    range of the format is not modelled: the magnitudes rounded here are
    numbers of seconds of at least one microsecond, and those between two
    datetimes stay below 3.2e11. *)

(** [floor (log2 x)] for a rational [0 < x] *)
Definition ilog2 (x : Q) : Z :=
  if Qle_bool 1 x then Z.log2 (Qfloor x)
  else (- Z.log2_up (Qceiling (/ x)))%Z.

(** the nearest integer, a tie going to the even one *)
Definition round_half_even (x : Q) : Z :=
  let f := Qfloor x in
  match (x - inject_Z f ?= 1 # 2)%Q with
  | Lt => f
  | Eq => if Z.even f then f else (f + 1)%Z
  | Gt => (f + 1)%Z
  end.

(** the double nearest to [0 < x]: the doubles from [2 ^ ilog2 x] to
    [2 ^ (ilog2 x + 1)] are the multiples of [2 ^ (ilog2 x - 52)] *)
Definition round_pos (x : Q) : Q :=
  let ulp := (2 ^ (ilog2 x - 52))%Q in
  (inject_Z (round_half_even (x / ulp)) * ulp)%Q.

(** the double nearest to [x], as the correctly rounded division of two
    integers gives it (round to nearest, ties to even) *)
Definition binary64 (x : Q) : Q :=
  match Qnum x with
  | Z0 => 0%Q
  | Zpos _ => round_pos x
  | Zneg _ => (- round_pos (- x))%Q
  end.

(** [timedelta.total_seconds()]: the number of microseconds divided by
    [10**6], a true division of integers, which is correctly rounded *)
Definition total_seconds (td : timedelta) : Q := binary64 (td # 1000000).

(** [a // b] on a float [a] and the integer [b = 60]: the float of the floor
    of the quotient. [float_floor_div] takes the exact [fmod] off [a] and
    divides the difference, an exact multiple of [b], by [b]; no step rounds
    while the quotient is below [2 ** 53]. *)
Definition floordiv (a b : Q) : Z := Qfloor (a / b).

(** [d.get(k, dflt)] on a dict *)
Definition dict_get {V : Type} (d : gmap string V) (k : string) (dflt : V) : V :=
  default dflt (d !! k).

(** ** The ambient world: clock, random generator, uuid source, output *)

Record Notification := {
  printed : string;
  logged : string
}.

Record World := {
  clock : nat → datetime;
  ticks : nat;
  entropy : nat → nat;
  draws : nat;
  uuid_source : nat → string;
  uuids : nat;
  outbox : list Notification
}.

Definition Sys (A : Type) : Type := World → A * World.

#[global] Instance Sys_ret : MRet Sys := λ A a w, (a, w).
#[global] Instance Sys_bind : MBind Sys := λ A B f m w,
  let '(a, w') := m w in f a w'.

(** [datetime.now()] *)
Definition datetime_now : Sys datetime := λ w,
  (clock w (ticks w),
   {| clock := clock w; ticks := S (ticks w); entropy := entropy w;
      draws := draws w; uuid_source := uuid_source w; uuids := uuids w;
      outbox := outbox w |}).

(** one call into the [random] module: the raw number it is served *)
Definition random_raw : Sys nat := λ w,
  (entropy w (draws w),
   {| clock := clock w; ticks := ticks w; entropy := entropy w;
      draws := S (draws w); uuid_source := uuid_source w; uuids := uuids w;
      outbox := outbox w |}).

(** [random.randint(a, b)], for [a <= b] *)
Definition random_randint (a b : Z) : Sys Z :=
  r ← random_raw; mret (a + Z.of_nat r `mod` (b - a + 1))%Z.

(** [random.choice(seq)] on the non-empty sequence [x :: xs] *)
Definition random_choice {A : Type} (x : A) (xs : list A) : Sys A :=
  r ← random_raw; mret (nth (r `mod` length (x :: xs)) (x :: xs) x).

(** [str(uuid.uuid4())] *)
Definition uuid4_str : Sys string := λ w,
  (uuid_source w (uuids w),
   {| clock := clock w; ticks := ticks w; entropy := entropy w;
      draws := draws w; uuid_source := uuid_source w; uuids := S (uuids w);
      outbox := outbox w |}).

(** what [print] and [logging.info] receive *)
Definition emit (n : Notification) : Sys unit := λ w,
  (tt,
   {| clock := clock w; ticks := ticks w; entropy := entropy w;
      draws := draws w; uuid_source := uuid_source w; uuids := uuids w;
      outbox := outbox w ++ [n] |}).

(** ** Patient *)

Definition condition : Type := string * Z.

Record Patient := {
  patient_id : string;
  name : string;
  contact_number : option string;
  scheduled_time : datetime;
  arrival_time : datetime;
  source : string;
  medical_condition : condition;
  urgency : Z;
  priority : Z;
  status : string;
  wait_time : option Z
}.

Definition set_priority (self : Patient) (v : Z) : Patient :=
  {| patient_id := patient_id self; name := name self;
     contact_number := contact_number self;
     scheduled_time := scheduled_time self;
     arrival_time := arrival_time self; source := source self;
     medical_condition := medical_condition self; urgency := urgency self;
     priority := v; status := status self; wait_time := wait_time self |}.

(** [Patient._generate_medical_condition] *)
Definition _generate_medical_condition : Sys condition :=
  random_choice ("Minor Checkup", 1%Z)
    [("Routine Prescription", 2%Z);
     ("Chronic Disease Follow-up", 3%Z);
     ("Acute Pain", 4%Z);
     ("Severe Symptoms", 5%Z)].

(** [Patient._calculate_urgency]: the severity of a freshly generated
    condition; [self.medical_condition] is not read. *)
Definition _calculate_urgency : Sys Z :=
  c ← _generate_medical_condition; mret (c.2).

(** [Patient.calculate_priority] *)
Definition calculate_priority (self : Patient) : Z :=
  let delay :=
    Z.max 0 (floordiv
               (total_seconds (arrival_time self - scheduled_time self)%Z)
               (60 # 1)) in
  let source_priority : gmap string Z :=
    {[ "Walk-in" := (-1)%Z; "App" := 1%Z; "WhatsApp" := 0%Z ]} in
  (urgency self * 10 - delay + dict_get source_priority (source self) 0)%Z.

(** [x or <default>] for an optional string: [None] and [""] are falsy *)
Definition str_or (x : option string) (dflt : Sys string) : Sys string :=
  match x with
  | Some s => if decide (s = "") then dflt else mret s
  | None => dflt
  end.

(** [x or <default>] for an optional value that is truthy when present *)
Definition val_or {A : Type} (x : option A) (dflt : Sys A) : Sys A :=
  match x with
  | Some a => mret a
  | None => dflt
  end.

(** [Patient.__init__] *)
Definition Patient_init (name_arg contact_number_arg : option string)
    (scheduled_time_arg : option datetime) (source_arg : option string)
    (medical_condition_arg : option condition) : Sys Patient :=
  pid ← uuid4_str;
  nm ← str_or name_arg
         (n ← random_randint 1000 9999; mret ("Patient_" +:+ pretty n));
  sched ← val_or scheduled_time_arg datetime_now;
  arr ← datetime_now;
  src ← str_or source_arg (random_choice "App" ["Walk-in"; "WhatsApp"]);
  cond ← val_or medical_condition_arg _generate_medical_condition;
  urg ← _calculate_urgency;
  let self :=
    {| patient_id := pid; name := nm; contact_number := contact_number_arg;
       scheduled_time := sched; arrival_time := arr; source := src;
       medical_condition := cond; urgency := urg;
       priority := 0%Z; status := "Scheduled"; wait_time := None |} in
  mret (set_priority self (calculate_priority self)).

(** the [<] of Python objects, as their class defines [__lt__] *)
Class PyLt (A : Type) := py_lt : A → A → bool.

(** [Patient.__lt__]: the reversed comparison that turns the min-heap of
    [heapq] into a max-heap on priority *)
#[global] Instance Patient_lt : PyLt Patient := λ self other,
  (priority other <? priority self)%Z.

(** ** heapq

    The functions of CPython's [heapq] module that [Doctor] calls, on a
    Python list of items compared with [<] only. *)

(** [heap[i]] *)
Definition getitem {A : Type} (heap : list A) (i : nat) : outcome A :=
  match heap !! i with
  | Some x => Return x
  | None => Raise IndexError
  end.

(** [heap[i] = x] *)
Definition setitem {A : Type} (heap : list A) (i : nat) (x : A)
    : outcome (list A) :=
  if decide (i < length heap) then Return (<[i := x]> heap)
  else Raise IndexError.

(** [heap.pop()] *)
Definition list_pop {A : Type} (heap : list A) : outcome (A * list A) :=
  match last heap with
  | Some x => Return (x, take (length heap - 1) heap)
  | None => Raise IndexError
  end.

(** [(pos - 1) >> 1] *)
Definition parentpos_of (pos : nat) : nat := Nat.shiftr (pos - 1) 1.

(** a value together with the equation that it is the value of [x] *)
Definition inspect {A : Type} (x : A) : {y : A | x = y} := exist _ x eq_refl.

Section heapq.
Context {A : Type} `{!PyLt A}.

(** the [while pos > startpos] loop of [_siftdown]; the result is the
    list and the position left for [newitem] *)
Equations siftdown_loop (heap : list A) (newitem : A) (startpos pos : nat)
    : outcome (list A * nat) by wf pos lt :=
siftdown_loop heap newitem startpos pos with decide (startpos < pos) := {
  | right _ => Return (heap, pos)
  | left Hgt with getitem heap (parentpos_of pos) := {
    | Raise e => Raise e
    | Return parent with py_lt newitem parent := {
      | true with setitem heap pos parent := {
        | Raise e => Raise e
        | Return heap' =>
            siftdown_loop heap' newitem startpos (parentpos_of pos) }
      | false => Return (heap, pos) } } }.
Next Obligation.
  intros. unfold parentpos_of. rewrite Nat.shiftr_div_pow2.
  apply Nat.Div0.div_lt_upper_bound. simpl. lia.
Qed.

(** [_siftdown(heap, startpos, pos)] *)
Definition _siftdown (heap : list A) (startpos pos : nat)
    : outcome (list A) :=
  newitem ← getitem heap pos;
  '(heap, pos) ← siftdown_loop heap newitem startpos pos;
  setitem heap pos newitem.

(** the choice of [childpos] in the body of [_siftup]'s loop *)
Definition smaller_child (heap : list A) (endpos childpos : nat)
    : outcome nat :=
  let rightpos := childpos + 1 in
  if decide (rightpos < endpos) then
    l ← getitem heap childpos;
    r ← getitem heap rightpos;
    if negb (py_lt l r) then Return rightpos else Return childpos
  else Return childpos.

(** the [while childpos < endpos] loop of [_siftup], where [childpos] is
    [2*pos + 1] at every test of the condition *)
Equations siftup_loop (heap : list A) (endpos pos : nat)
    : outcome (list A * nat) by wf (endpos - pos) lt :=
siftup_loop heap endpos pos with decide (2 * pos + 1 < endpos) := {
  | right _ => Return (heap, pos)
  | left Hlt with inspect (smaller_child heap endpos (2 * pos + 1)) := {
    | exist _ (Raise e) _ => Raise e
    | exist _ (Return childpos) Hc with getitem heap childpos := {
      | Raise e => Raise e
      | Return child with setitem heap pos child := {
        | Raise e => Raise e
        | Return heap' => siftup_loop heap' endpos childpos } } } }.
Next Obligation.
  intros. revert Hc. unfold smaller_child.
  case_decide; [|intros [= <-]; lia].
  do 2 (try destruct (getitem heap _); simpl); try discriminate.
  destruct (negb _); intros [= <-]; lia.
Qed.

(** [_siftup(heap, pos)] *)
Definition _siftup (heap : list A) (pos : nat) : outcome (list A) :=
  let endpos := length heap in
  let startpos := pos in
  newitem ← getitem heap pos;
  '(heap, pos) ← siftup_loop heap endpos pos;
  heap ← setitem heap pos newitem;
  _siftdown heap startpos pos.

(** [heapq.heappush(heap, item)] *)
Definition heappush (heap : list A) (item : A) : outcome (list A) :=
  let heap := heap ++ [item] in
  _siftdown heap 0 (length heap - 1).

(** [heapq.heappop(heap)]: the popped item and the list left *)
Definition heappop (heap : list A) : outcome (A * list A) :=
  '(lastelt, heap) ← list_pop heap;
  if decide (heap ≠ []) then
    returnitem ← getitem heap 0;
    heap ← setitem heap 0 lastelt;
    heap ← _siftup heap 0;
    Return (returnitem, heap)
  else Return (lastelt, heap).

End heapq.

(** ** Doctor *)

Record Doctor := {
  doctor_id : string;
  specialization : string;
  queue : list Patient;
  availability_blocks : list (datetime * datetime);
  avg_consultation_time : Z;
  daily_capacity : Z
}.

Definition set_queue (self : Doctor) (q : list Patient) : Doctor :=
  {| doctor_id := doctor_id self; specialization := specialization self;
     queue := q; availability_blocks := availability_blocks self;
     avg_consultation_time := avg_consultation_time self;
     daily_capacity := daily_capacity self |}.

(** [t.replace(hour=h, minute=m)], the time line starting at a midnight *)
Definition replace_hour_minute (t : datetime) (h m : Z) : datetime :=
  (t `div` 86400000000 * 86400000000 + h * 3600000000 + m * 60000000
   + t `mod` 60000000)%Z.

(** the fields of a datetime: [t.date()] as a number of days, [t.hour],
    [t.minute], and [t.second] with [t.microsecond], in microseconds *)
Definition date_of (t : datetime) : Z := (t `div` 86400000000)%Z.
Definition hour_of (t : datetime) : Z :=
  ((t `mod` 86400000000) `div` 3600000000)%Z.
Definition minute_of (t : datetime) : Z :=
  ((t `mod` 3600000000) `div` 60000000)%Z.
Definition second_of (t : datetime) : Z := (t `mod` 60000000)%Z.

(** [Doctor._generate_availability_blocks] *)
Definition _generate_availability_blocks : Sys (list (datetime * datetime)) :=
  a ← datetime_now; b ← datetime_now; c ← datetime_now; d ← datetime_now;
  mret [(replace_hour_minute a 9 0, replace_hour_minute b 12 0);
        (replace_hour_minute c 15 0, replace_hour_minute d 18 0)].

(** [x or <default>] for an optional list: [None] and [[]] are falsy *)
Definition list_or {A : Type} (x : option (list A)) (dflt : Sys (list A))
    : Sys (list A) :=
  match x with
  | Some (a :: l) => mret (a :: l)
  | _ => dflt
  end.

(** [Doctor.__init__] *)
Definition Doctor_init (doctor_id_arg specialization_arg : string)
    (availability_blocks_arg : option (list (datetime * datetime)))
    : Sys Doctor :=
  blocks ← list_or availability_blocks_arg _generate_availability_blocks;
  avg ← random_randint 10 25;
  cap ← random_randint 30 50;
  mret {| doctor_id := doctor_id_arg; specialization := specialization_arg;
          queue := []; availability_blocks := blocks;
          avg_consultation_time := avg; daily_capacity := cap |}.

(** [Doctor.add_patient] *)
Definition add_patient (self : Doctor) (patient : Patient) : outcome Doctor :=
  q ← heappush (queue self) patient; Return (set_queue self q).

(** [Doctor.next_patient]: the value returned and the doctor afterwards *)
Definition next_patient (self : Doctor) : outcome (option Patient * Doctor) :=
  if decide (queue self ≠ []) then
    '(p, q) ← heappop (queue self); Return (Some p, set_queue self q)
  else Return (None, self).

(** [Doctor.estimate_wait_time] *)
Definition estimate_wait_time (self : Doctor) : Z :=
  (Z.of_nat (length (queue self)) * avg_consultation_time self)%Z.

(** ** CommunicationManager *)

(** [CommunicationManager.send_notification] *)
Definition send_notification (patient : Patient) (message : string)
    : Sys unit :=
  emit {| printed := "Notification to " +:+ name patient +:+ " ("
                     +:+ source patient +:+ "): " +:+ message;
          logged := "Notification sent to " +:+ patient_id patient +:+ ": "
                    +:+ message |}.

(** ** QueueManagementSystem *)

(** [self.doctors] is a dict: its entries in insertion order. A doctor object
    is referred to by the slot of its entry. *)
Record QueueManagementSystem := {
  doctors : list (string * Doctor)
}.

Abbreviation DoctorRef := nat (only parsing).

(** [d[k] = v] on a dict kept in insertion order *)
Fixpoint dict_setitem {V : Type} (d : list (string * V)) (k : string) (v : V)
    : list (string * V) :=
  match d with
  | [] => [(k, v)]
  | (k', v') :: d' =>
      if decide (k' = k) then (k', v) :: d'
      else (k', v') :: dict_setitem d' k v
  end.

(** [self.doctors.values()], each object with its reference *)
Definition doctor_values (self : QueueManagementSystem)
    : list (DoctorRef * Doctor) :=
  imap (λ i kv, (i, kv.2)) (doctors self).

(** the state of the object behind a reference *)
Definition doctor_at (self : QueueManagementSystem) (ref : DoctorRef)
    : option Doctor :=
  snd <$> doctors self !! ref.

(** the effect on [self.doctors] of mutating the object behind [ref] *)
Definition store_doctor (self : QueueManagementSystem) (ref : DoctorRef)
    (d : Doctor) : QueueManagementSystem :=
  {| doctors := alter (λ kv, (kv.1, d)) ref (doctors self) |}.

(** [QueueManagementSystem.add_doctor] *)
Definition add_doctor (self : QueueManagementSystem)
    (doctor_id_arg specialization_arg : string)
    (availability_blocks_arg : option (list (datetime * datetime)))
    : Sys QueueManagementSystem :=
  d ← Doctor_init doctor_id_arg specialization_arg availability_blocks_arg;
  mret {| doctors := dict_setitem (doctors self) doctor_id_arg d |}.

(** the [for i in range(num_doctors)] loop of the constructor, from [i] on *)
Fixpoint init_doctors (remaining i : nat) (self : QueueManagementSystem)
    : Sys QueueManagementSystem :=
  match remaining with
  | 0 => mret self
  | S remaining' =>
      spec ← random_choice "General"
               ["Pediatrics"; "Cardiology"; "Neurology"; "Orthopedics"];
      self' ← add_doctor self ("DOC-" +:+ pretty (i + 1)) spec None;
      init_doctors remaining' (S i) self'
  end.

(** [QueueManagementSystem.__init__] *)
Definition QueueManagementSystem_init (num_doctors : nat)
    : Sys QueueManagementSystem :=
  init_doctors num_doctors 0 {| doctors := [] |}.

(** [QueueManagementSystem._map_condition_to_specialization] *)
Definition _map_condition_to_specialization (medical_condition : condition)
    : string :=
  let mapping : gmap string string :=
    {[ "Chronic Disease Follow-up" := "Cardiology";
       "Acute Pain" := "Orthopedics";
       "Severe Symptoms" := "Neurology" ]} in
  dict_get mapping medical_condition.1 "General".

(** [QueueManagementSystem._is_doctor_suitable] *)
Definition _is_doctor_suitable (doctor : Doctor) (patient : Patient) : bool :=
  bool_decide (specialization doctor = "General")
  || bool_decide (specialization doctor
                  = _map_condition_to_specialization
                      (medical_condition patient)).

(** [min(seq, key=f)]: the first item whose key no other item is below *)
Definition py_min {A : Type} (key : A → Z) (seq : list A) : outcome A :=
  match seq with
  | [] => Raise ValueError
  | x :: xs =>
      Return (foldl (λ best y, if (key y <? key best)%Z then y else best)
                    x xs)
  end.

(** the candidates [assign_patient] chooses from *)
Definition candidates (self : QueueManagementSystem) (patient : Patient)
    : list (DoctorRef * Doctor) :=
  let suitable_doctors :=
    filter (λ d, _is_doctor_suitable d.2 patient) (doctor_values self) in
  if decide (suitable_doctors = []) then
    filter (λ d, specialization d.2 = "General") (doctor_values self)
  else suitable_doctors.

Definition assigned_message (doctor : Doctor) (wait_time : Z) : string :=
  "Assigned to Dr. " +:+ doctor_id doctor +:+ ". Estimated wait: "
  +:+ pretty wait_time +:+ " minutes".

(** [QueueManagementSystem.assign_patient]: the reference returned and the
    system afterwards, or the exception raised *)
Definition assign_patient (self : QueueManagementSystem) (patient : Patient)
    (w : World) : outcome (DoctorRef * QueueManagementSystem) * World :=
  let suitable_doctors := candidates self patient in
  match py_min (λ d, estimate_wait_time d.2) suitable_doctors with
  | Raise e => (Raise e, w)
  | Return (ref, best_doctor) =>
      match add_patient best_doctor patient with
      | Raise e => (Raise e, w)
      | Return best_doctor =>
          let wait_time := estimate_wait_time best_doctor in
          let '(_, w) :=
            send_notification patient
              (assigned_message best_doctor wait_time) w in
          (Return (ref, store_doctor self ref best_doctor), w)
      end
  end.

(** ** The condition as a caller may pass it

    [Patient.__init__] and [_map_condition_to_specialization] take any
    Python value as the medical condition. The records above hold the
    conditions the code itself makes, pairs of a name and a severity; here
    is the same code on the other values a caller can pass. *)

Module Untyped.

(** the Python values a condition can be made of *)
#[local] Unset Elimination Schemes.
Inductive value : Type :=
| VNone
| VBool (b : bool)
| VInt (n : Z)
| VStr (s : string)
| VTuple (items : list value)
| VList (items : list value).
#[local] Set Elimination Schemes.

(** the tuple [(name, severity)] of a condition *)
Definition of_condition (c : condition) : value :=
  VTuple [VStr c.1; VInt c.2].

(** [bool(v)] *)
Definition truthy (v : value) : bool :=
  match v with
  | VNone => false
  | VBool b => b
  | VInt n => negb (n =? 0)%Z
  | VStr s => negb (bool_decide (s = ""))
  | VTuple items | VList items => negb (bool_decide (items = []))
  end.

(** [v[0]]: [None], booleans and integers are not subscriptable, an empty
    sequence has no first item, and the first item of a string is the
    string of its first character (of its first byte here, a [string] being
    a list of bytes) *)
Definition getitem_0 (v : value) : outcome value :=
  match v with
  | VNone | VBool _ | VInt _ => Raise TypeError
  | VStr EmptyString => Raise IndexError
  | VStr (String a _) => Return (VStr (String a EmptyString))
  | VTuple [] | VList [] => Raise IndexError
  | VTuple (x :: _) | VList (x :: _) => Return x
  end.

(** [hash(v)] is defined: a list is unhashable, a tuple is hashed through
    its items *)
Fixpoint hashable (v : value) : bool :=
  match v with
  | VList _ => false
  | VTuple items => forallb hashable items
  | _ => true
  end.

(** [d.get(k, dflt)] on a dict whose keys are strings: the key is hashed,
    and a key that is not a string equals none of them *)
Definition dict_get {V : Type} (d : gmap string V) (k : value) (dflt : V)
    : outcome V :=
  if hashable k then
    Return match k with
           | VStr s => default dflt (d !! s)
           | _ => dflt
           end
  else Raise TypeError.

(** [QueueManagementSystem._map_condition_to_specialization] *)
Definition _map_condition_to_specialization (medical_condition : value)
    : outcome string :=
  let mapping : gmap string string :=
    {[ "Chronic Disease Follow-up" := "Cardiology";
       "Acute Pain" := "Orthopedics";
       "Severe Symptoms" := "Neurology" ]} in
  key ← getitem_0 medical_condition;
  dict_get mapping key "General".

(** [medical_condition or self._generate_medical_condition()], the
    condition [Patient.__init__] stores *)
Definition medical_condition_or (medical_condition : value) : Sys value :=
  if truthy medical_condition then mret medical_condition
  else c ← _generate_medical_condition; mret (of_condition c).

End Untyped.

(** ** Draining and filling a queue *)

(** [for p in ps: self.add_patient(p)] *)
Fixpoint push_all (ps : list Patient) (self : Doctor) : outcome Doctor :=
  match ps with
  | [] => Return self
  | p :: ps' => self' ← add_patient self p; push_all ps' self'
  end.

(** [[self.next_patient() for _ in range(n)]], and the doctor afterwards *)
Fixpoint drain (n : nat) (self : Doctor)
    : outcome (list (option Patient) * Doctor) :=
  match n with
  | 0 => Return ([], self)
  | S n' =>
      '(r, self') ← next_patient self;
      '(rs, self'') ← drain n' self';
      Return (r :: rs, self'')
  end.

(** ** The quantities the specification names *)

(** whole minutes from the scheduled time to the arrival, zero for an early
    or on-time arrival *)
Definition minutes_late (scheduled arrival : datetime) : Z :=
  Z.max 0 ((arrival - scheduled) `div` 60000000)%Z.

Definition delay_minutes (self : Patient) : Z :=
  minutes_late (scheduled_time self) (arrival_time self).

Definition source_adjustment (src : string) : Z :=
  if decide (src = "Walk-in") then (-1)%Z
  else if decide (src = "App") then 1%Z
  else if decide (src = "WhatsApp") then 0%Z
  else 0%Z.

Definition required_specialization (c : condition) : string :=
  if decide (c.1 = "Chronic Disease Follow-up") then "Cardiology"
  else if decide (c.1 = "Acute Pain") then "Orthopedics"
  else if decide (c.1 = "Severe Symptoms") then "Neurology"
  else "General".

(** the specialization [s] listed for the first item [k] of a condition:
    the one of its name, or General for any other item *)
Definition named_specialization (k : Untyped.value) (s : string) : Prop :=
  (k = Untyped.VStr "Chronic Disease Follow-up" ∧ s = "Cardiology")
  ∨ (k = Untyped.VStr "Acute Pain" ∧ s = "Orthopedics")
  ∨ (k = Untyped.VStr "Severe Symptoms" ∧ s = "Neurology")
  ∨ ((k ∉ [Untyped.VStr "Chronic Disease Follow-up";
           Untyped.VStr "Acute Pain"; Untyped.VStr "Severe Symptoms"])
     ∧ s = "General").

(** a doctor the routing policy may choose for a patient *)
Definition suitable (d : Doctor) (p : Patient) : Prop :=
  specialization d = "General"
  ∨ specialization d = required_specialization (medical_condition p).

(** ** Sample worlds and patients *)

(** a world whose clock stands at [t] and whose random generator always
    serves [raw] *)
Definition frozen_world (t : datetime) (raw : nat) : World :=
  {| clock := λ _, t; ticks := 0; entropy := λ _, raw; draws := 0;
     uuid_source := λ _, "uuid"; uuids := 0; outbox := [] |}.
Arguments frozen_world t%_Z raw%_nat.

(** [Patient(name="Ann", scheduled_time=scheduled, source="App",
    medical_condition=("Acute Pain", 4))] created at [now] *)
Definition acute_patient (scheduled now : datetime) (raw : nat) : Patient :=
  (Patient_init (Some "Ann") None (Some scheduled) (Some "App")
     (Some ("Acute Pain", 4%Z)) (frozen_world now raw)).1.
Arguments acute_patient (scheduled now)%_Z raw%_nat.

(** ** Sample systems *)

(** [add_doctor("DOC-1", "Pediatrics")] on an empty system *)
Definition pediatrics_only : QueueManagementSystem :=
  (add_doctor {| doctors := [] |} "DOC-1" "Pediatrics" None
     (frozen_world 0 0)).1.

(** [add_doctor("DOC-2", "General")], then [add_doctor("DOC-1", "General")],
    on an empty system *)
Definition two_generals : QueueManagementSystem :=
  ((self ← add_doctor {| doctors := [] |} "DOC-2" "General" None;
    add_doctor self "DOC-1" "General" None) (frozen_world 0 0)).1.

(** the system and the world after
    [two_generals.assign_patient(acute_patient)] *)
Definition two_generals_after : QueueManagementSystem :=
  Eval vm_compute in
    match (assign_patient two_generals (acute_patient 0 0 3)
             (frozen_world 0 0)).1 with
    | Return (_, self) => self
    | Raise _ => two_generals
    end.

Definition world_after : World :=
  (emit {| printed := "Notification to Ann (App): Assigned to Dr. DOC-2. "
                      +:+ "Estimated wait: 10 minutes";
           logged := "Notification sent to uuid: Assigned to Dr. DOC-2. "
                     +:+ "Estimated wait: 10 minutes" |}
        (frozen_world 0 0)).2.

(** ** The invariant of a heapq list, for a comparison that reads a key *)

(** the item at [i] has a key at least that of the item at [j] *)
Definition ordered {A : Type} (key : A → Z) (h : list A) (i j : nat) : Prop :=
  ∀ x y, h !! i = Some x → h !! j = Some y → (key y ≤ key x)%Z.

(** the heap invariant of heapq: no item is [<] its parent *)
Definition heap_inv {A : Type} (key : A → Z) (h : list A) : Prop :=
  ∀ i, 0 < i → ordered key h (parentpos_of i) i.

(** the invariant but for the edges at [pos], whose parent bounds its
    children *)
Definition hole_inv {A : Type} (key : A → Z) (h : list A) (pos : nat) : Prop :=
  (∀ i, 0 < i → i ≠ pos → parentpos_of i ≠ pos →
        ordered key h (parentpos_of i) i) ∧
  (0 < pos → ∀ c, 0 < c → parentpos_of c = pos →
        ordered key h (parentpos_of pos) c).

(** the invariant but for the edge from [pos] to its parent *)
Definition up_inv {A : Type} (key : A → Z) (h : list A) (pos : nat) : Prop :=
  hole_inv key h pos
  ∧ ∀ c, 0 < c → parentpos_of c = pos → ordered key h pos c.

(** ** Sequences of calls *)

(** a call on the queue of a doctor: [self.add_patient(p)] or
    [self.next_patient()] *)
Inductive queue_op : Type :=
| Push (p : Patient)
| Pop.

#[global] Instance queue_op_is_Pop (op : queue_op) : Decision (op = Pop).
Proof. destruct op; [right|left]; done. Defined.

(** the calls [ops] in order: what the [next_patient] calls return, and the
    doctor afterwards *)
Fixpoint run_ops (ops : list queue_op) (self : Doctor)
    : outcome (list (option Patient) * Doctor) :=
  match ops with
  | [] => Return ([], self)
  | Push p :: ops' => self' ← add_patient self p; run_ops ops' self'
  | Pop :: ops' =>
      '(r, self') ← next_patient self;
      '(rs, self'') ← run_ops ops' self';
      Return (r :: rs, self'')
  end.

(** the patients the calls [ops] push *)
Definition pushed (ops : list queue_op) : list Patient :=
  omap (λ op, match op with Push p => Some p | Pop => None end) ops.

(** the number of [next_patient] calls among [ops] *)
Definition pops (ops : list queue_op) : nat :=
  length (filter (λ op, op = Pop) ops).


(** [d.get(k)] on a dict kept in insertion order *)
Fixpoint dict_lookup {V : Type} (d : list (string * V)) (k : string)
    : option V :=
  match d with
  | [] => None
  | (k', v) :: d' => if decide (k' = k) then Some v else dict_lookup d' k
  end.

(** the number of patients waiting, over all doctors *)
Definition total_queued (self : QueueManagementSystem) : nat :=
  sum_list ((λ kv, length (queue kv.2)) <$> doctors self).

(** all the patients waiting, doctor by doctor *)
Definition all_queued (self : QueueManagementSystem) : list Patient :=
  concat ((λ kv, queue kv.2) <$> doctors self).

(** every queue of the system is a heap on priority *)
Definition queues_are_heaps (self : QueueManagementSystem) : Prop :=
  ∀ ref d, doctor_at self ref = Some d → heap_inv priority (queue d).

(** ** main *)

(** [str(patient.priority)]: the priority is an [int] while the floor
    division of the delay is not positive ([max] then returns its first
    argument, the [int] 0), and a [float] of integral value otherwise *)
Definition priority_str (p : Patient) : string :=
  if (0 <? floordiv (total_seconds (arrival_time p - scheduled_time p)%Z)
                    (60 # 1))%Z
  then pretty (priority p) +:+ ".0"
  else pretty (priority p).

(** the [for _ in range(100)] loop of [main], from iteration [i] on: the
    lines [main] itself prints, and the system at the end or the exception
    that ends the loop *)
Fixpoint main_loop (remaining i : nat) (qms : QueueManagementSystem)
    (w : World) : (list string * outcome QueueManagementSystem) * World :=
  match remaining with
  | 0 => (([], Return qms), w)
  | S remaining' =>
      let '(now, w) := datetime_now w in
      let '(minutes, w) := random_randint 0 60 w in
      let '(src, w) := random_choice "App" ["Walk-in"; "WhatsApp"] w in
      let '(patient, w) :=
        Patient_init (Some ("Patient_" +:+ pretty i)) None
          (Some (now + minutes * 60000000)%Z) (Some src) None w in
      match assign_patient qms patient w with
      | (Raise e, w) => (([], Raise e), w)
      | (Return (ref, qms), w) =>
          let line :=
            "Patient " +:+ name patient +:+ " (Priority: "
            +:+ priority_str patient +:+ ") assigned to Dr. "
            +:+ from_option doctor_id "" (doctor_at qms ref) in
          let '((lines, r), w) := main_loop remaining' (S i) qms w in
          ((line :: lines, r), w)
      end
  end.

(** [main] *)
Definition main (w : World)
    : (list string * outcome QueueManagementSystem) * World :=
  let '(qms, w) := QueueManagementSystem_init 50 w in
  main_loop 100 0 qms w.

(** * Properties

    ** The loops of heapq, one iteration at a time *)

Lemma parentpos_of_div pos : parentpos_of pos = (pos - 1) / 2.
Proof. unfold parentpos_of. by rewrite Nat.shiftr_div_pow2. Qed.

Lemma parentpos_of_lt pos : 0 < pos → parentpos_of pos < pos.
Proof.
  intros Hpos. rewrite parentpos_of_div.
  apply Nat.Div0.div_lt_upper_bound. lia.
Qed.

Lemma smaller_child_range {A : Type} `{!PyLt A} (heap : list A) endpos
    childpos c :
  smaller_child heap endpos childpos = Return c →
  c = childpos ∨ (c = childpos + 1 ∧ c < endpos).
Proof.
  unfold smaller_child. case_decide; [|naive_solver].
  destruct (getitem heap childpos); [|done]. simpl.
  destruct (getitem heap (childpos + 1)); [|done]. simpl.
  destruct (negb _); naive_solver.
Qed.


Ltac use_clause :=
  match goal with
  | H : decide _ = _ |- _ => rewrite H
  | H : getitem _ _ = _ |- _ => rewrite H
  | H : setitem _ _ _ = _ |- _ => rewrite H
  | H : py_lt _ _ = _ |- _ => rewrite H
  | H : smaller_child _ _ _ = _ |- _ => rewrite H
  end.

Section heapq_unfold.
Context {A : Type} `{!PyLt A}.

Lemma siftdown_loop_step (heap : list A) newitem startpos pos :
  siftdown_loop heap newitem startpos pos =
  if decide (startpos < pos) then
    parent ← getitem heap (parentpos_of pos);
    if py_lt newitem parent then
      heap' ← setitem heap pos parent;
      siftdown_loop heap' newitem startpos (parentpos_of pos)
    else Return (heap, pos)
  else Return (heap, pos).
Proof.
  funelim (siftdown_loop heap newitem startpos pos); clear Heqcall;
    repeat (use_clause; cbn [mbind outcome_bind]); done.
Qed.

Lemma siftup_loop_step (heap : list A) endpos pos :
  siftup_loop heap endpos pos =
  if decide (2 * pos + 1 < endpos) then
    childpos ← smaller_child heap endpos (2 * pos + 1);
    child ← getitem heap childpos;
    heap' ← setitem heap pos child;
    siftup_loop heap' endpos childpos
  else Return (heap, pos).
Proof.
  funelim (siftup_loop heap endpos pos); clear Heqcall;
    repeat (use_clause; cbn [mbind outcome_bind]); done.
Qed.
End heapq_unfold.

(** ** Correctness of heapq for a comparison that reads a key

    [py_lt a b] holds when [a] has the greater key, as [Patient.__lt__]
    does with [priority]: heapq's min-heap then keeps the greatest key at
    the root. *)

Lemma parentpos_of_child c p :
  0 < c → parentpos_of c = p ↔ c = 2 * p + 1 ∨ c = 2 * p + 2.
Proof.
  intros Hc. rewrite parentpos_of_div.
  pose proof (Nat.div_mod_eq (c - 1) 2).
  pose proof (Nat.mod_upper_bound (c - 1) 2). lia.
Qed.

Lemma lookup_swap {A : Type} (h : list A) i j x y k :
  i < length h → j < length h → i ≠ j →
  <[j := x]> (<[i := y]> h) !! k =
  if decide (k = j) then Some x
  else if decide (k = i) then Some y else h !! k.
Proof.
  intros Hi Hj Hij. case_decide as Hkj.
  - subst k. apply list_lookup_insert_eq. by rewrite length_insert.
  - rewrite list_lookup_insert_ne by done. case_decide as Hki.
    + subst k. by apply list_lookup_insert_eq.
    + by rewrite list_lookup_insert_ne.
Qed.

Lemma swap_Permutation {A : Type} (h : list A) i j x y :
  h !! i = Some x → h !! j = Some y →
  <[j := x]> (<[i := y]> h) ≡ₚ h.
Proof.
  intros Hx Hy. destruct (decide (i = j)) as [->|Hij].
  { rewrite list_insert_insert_eq. by rewrite list_insert_id by congruence. }
  pose proof (lookup_lt_Some _ _ _ Hx) as Hi.
  pose proof (lookup_lt_Some _ _ _ Hy) as Hj.
  apply Permutation_inj. split; [by rewrite !length_insert|].
  exists (λ k, if decide (k = j) then i else if decide (k = i) then j else k).
  split.
  - intros a b. repeat case_decide; lia.
  - intros k. rewrite lookup_swap by done. repeat case_decide; by subst.
Qed.

Ltac split_lookups :=
  repeat case_decide; intros Ha Hb;
  try (injection Ha as <-); try (injection Hb as <-);
  try lia; try congruence.

Section heapq_correct.
Context {A : Type} `{!PyLt A} (key : A → Z).
Hypothesis py_lt_key : ∀ a b : A, py_lt a b = (key b <? key a)%Z.

Lemma up_inv_swap h pos x p :
  0 < pos → h !! pos = Some x → h !! parentpos_of pos = Some p →
  (key p < key x)%Z → up_inv key h pos →
  up_inv key (<[parentpos_of pos := x]> (<[pos := p]> h)) (parentpos_of pos).
Proof.
  intros Hpos Hx Hp Hlt [[I1 I2] _].
  pose proof (parentpos_of_lt pos Hpos) as Hq.
  remember (parentpos_of pos) as q eqn:Hqdef.
  assert (L : ∀ k, <[q := x]> (<[pos := p]> h) !! k =
    if decide (k = q) then Some x
    else if decide (k = pos) then Some p else h !! k).
  { intros k. apply lookup_swap; [by eapply lookup_lt_Some.. | lia]. }
  assert (Hqp : 0 < q → ordered key h (parentpos_of q) q).
  { intros Hq0. pose proof (parentpos_of_lt q Hq0). apply I1; lia. }
  assert (Hsib : ∀ c, 0 < c → parentpos_of c = q → c ≠ pos →
                     ordered key h q c).
  { intros c Hc Hpc Hne. rewrite <-Hpc. apply I1; [done..|lia]. }
  split; [split|].
  - intros i Hi Hiq Hpi a b. rewrite !L.
    pose proof (parentpos_of_lt i Hi).
    split_lookups.
    + eapply (I2 Hpos i); eauto.
    + eapply (I1 i); eauto.
  - intros Hq0 c Hc Hpc a b. rewrite !L.
    pose proof (parentpos_of_lt q Hq0). pose proof (parentpos_of_lt c Hc).
    split_lookups.
    + eapply Hqp; eauto.
    + assert (key b ≤ key p)%Z by (eapply (Hsib c); eauto).
      assert (key p ≤ key a)%Z by (eapply Hqp; eauto). lia.
  - intros c Hc Hpc a b. rewrite !L.
    pose proof (parentpos_of_lt c Hc).
    split_lookups.
    assert (key b ≤ key p)%Z by (eapply (Hsib c); eauto). lia.
Qed.

Lemma up_inv_done h pos :
  up_inv key h pos → (pos = 0 ∨ ordered key h (parentpos_of pos) pos) →
  heap_inv key h.
Proof.
  intros [[I1 I2] I3] Hedge i Hi.
  destruct (decide (i = pos)) as [->|Hne]; [destruct Hedge; [lia|done]|].
  destruct (decide (parentpos_of i = pos)) as [<-|Hnp]; [by apply I3|].
  by apply I1.
Qed.

Lemma hole_inv_down h pos c x y :
  h !! pos = Some x → h !! c = Some y → 0 < c → parentpos_of c = pos →
  (∀ c', 0 < c' → parentpos_of c' = pos → ordered key h c c') →
  hole_inv key h pos →
  hole_inv key (<[c := x]> (<[pos := y]> h)) c.
Proof.
  intros Hx Hy Hc Hpc Hsib [I1 I2].
  pose proof (parentpos_of_lt c Hc) as Hlt. rewrite Hpc in Hlt.
  assert (L : ∀ k, <[c := x]> (<[pos := y]> h) !! k =
    if decide (k = c) then Some x
    else if decide (k = pos) then Some y else h !! k).
  { intros k. apply lookup_swap; [by eapply lookup_lt_Some.. | lia]. }
  split.
  - intros i Hi Hic Hpi a b. rewrite !L.
    pose proof (parentpos_of_lt i Hi).
    split_lookups.
    + eapply (Hsib i); eauto.
    + subst i. eapply (I2 Hi c); eauto.
    + eapply (I1 i); eauto.
  - intros _ g Hg Hpg a b. rewrite !L.
    pose proof (parentpos_of_lt g Hg).
    split_lookups.
    rewrite <-Hpg in Hy. eapply (I1 g); eauto; lia.
Qed.
Lemma siftdown_loop_spec pos : ∀ (heap : list A) newitem,
  pos < length heap →
  up_inv key (<[pos := newitem]> heap) pos →
  ∃ heap' pos',
    siftdown_loop heap newitem 0 pos = Return (heap', pos') ∧
    pos' < length heap' ∧
    heap_inv key (<[pos' := newitem]> heap') ∧
    <[pos' := newitem]> heap' ≡ₚ <[pos := newitem]> heap.
Proof.
  induction pos as [pos IH] using lt_wf_ind. intros heap newitem Hlen Hinv.
  rewrite siftdown_loop_step. case_decide as Hpos.
  - pose proof (parentpos_of_lt pos Hpos) as Hq.
    destruct (lookup_lt_is_Some_2 heap (parentpos_of pos)) as [parent Hp];
      [lia|].
    unfold getitem at 1. rewrite Hp. cbn [mbind outcome_bind].
    rewrite py_lt_key.
    destruct (Z.ltb_spec (key parent) (key newitem)) as [Hk|Hk].
    + unfold setitem at 1. rewrite decide_True by done.
      cbn [mbind outcome_bind].
      set (V := <[pos := newitem]> heap) in *.
      assert (HVpos : V !! pos = Some newitem)
        by (by apply list_lookup_insert_eq).
      assert (HVq : V !! parentpos_of pos = Some parent)
        by (unfold V; by rewrite list_lookup_insert_ne by lia).
      assert (HV' : <[parentpos_of pos := newitem]> (<[pos := parent]> heap)
                    = <[parentpos_of pos := newitem]> (<[pos := parent]> V))
        by (unfold V; by rewrite list_insert_insert_eq).
      destruct (IH (parentpos_of pos) Hq (<[pos := parent]> heap) newitem)
        as (heap' & pos' & Hrun & Hlen' & Hheap & Hperm).
      * rewrite length_insert. lia.
      * rewrite HV'. by apply up_inv_swap.
      * exists heap', pos'. split_and!; [done..|].
        rewrite Hperm, HV'. by eapply swap_Permutation.
    + exists heap, pos. split_and!; [done..| |done].
      eapply up_inv_done; [done|]. right. intros x y.
      rewrite list_lookup_insert_ne by lia.
      rewrite list_lookup_insert_eq by done.
      intros Hx [= <-]. rewrite Hp in Hx. injection Hx as <-. done.
  - exists heap, pos. split_and!; [done..| |done].
    eapply up_inv_done; [done|]. left. lia.
Qed.

Lemma _siftdown_spec (heap : list A) pos :
  pos < length heap → up_inv key heap pos →
  ∃ heap', _siftdown heap 0 pos = Return heap' ∧
           heap_inv key heap' ∧ heap' ≡ₚ heap.
Proof.
  intros Hlen Hinv.
  destruct (lookup_lt_is_Some_2 heap pos Hlen) as [newitem Hnew].
  unfold _siftdown, getitem at 1. rewrite Hnew. cbn [mbind outcome_bind].
  destruct (siftdown_loop_spec pos heap newitem Hlen)
    as (heap' & pos' & -> & Hlen' & Hheap & Hperm).
  { by rewrite list_insert_id. }
  cbn [mbind outcome_bind]. unfold setitem. rewrite decide_True by done.
  eexists. split; [done|]. split; [done|].
  by rewrite Hperm, list_insert_id.
Qed.

Lemma smaller_child_spec (heap : list A) pos :
  2 * pos + 1 < length heap →
  ∃ c y, smaller_child heap (length heap) (2 * pos + 1) = Return c ∧
         heap !! c = Some y ∧ 0 < c ∧ parentpos_of c = pos ∧
         ∀ c', 0 < c' → parentpos_of c' = pos → ordered key heap c c'.
Proof.
  intros Hlen.
  destruct (lookup_lt_is_Some_2 heap (2 * pos + 1) Hlen) as [l Hl].
  assert (Hkids : ∀ c', 0 < c' → parentpos_of c' = pos →
                        c' = 2 * pos + 1 ∨ c' = 2 * pos + 1 + 1).
  { intros c' Hc' Hp. apply parentpos_of_child in Hp; [lia|done]. }
  assert (Hpl : parentpos_of (2 * pos + 1) = pos)
    by (apply parentpos_of_child; lia).
  assert (Hpr : parentpos_of (2 * pos + 1 + 1) = pos)
    by (apply parentpos_of_child; lia).
  unfold smaller_child. case_decide as Hr.
  - destruct (lookup_lt_is_Some_2 heap (2 * pos + 1 + 1) Hr) as [r Hrv].
    unfold getitem. rewrite Hl, Hrv. cbn [mbind outcome_bind].
    rewrite py_lt_key.
    destruct (Z.ltb_spec (key r) (key l)) as [Hk|Hk]; cbn [negb].
    + exists (2 * pos + 1), l. split_and!; [done|done|lia|done|].
      intros c' Hc' Hp x y Hx Hy. rewrite Hl in Hx. injection Hx as <-.
      destruct (Hkids c' Hc' Hp) as [->| ->];
        [rewrite Hl in Hy|rewrite Hrv in Hy]; injection Hy as <-; lia.
    + exists (2 * pos + 1 + 1), r. split_and!; [done|done|lia|done|].
      intros c' Hc' Hp x y Hx Hy. rewrite Hrv in Hx. injection Hx as <-.
      destruct (Hkids c' Hc' Hp) as [->| ->];
        [rewrite Hl in Hy|rewrite Hrv in Hy]; injection Hy as <-; lia.
  - exists (2 * pos + 1), l. split_and!; [done|done|lia|done|].
    intros c' Hc' Hp x y Hx Hy. rewrite Hl in Hx. injection Hx as <-.
    destruct (Hkids c' Hc' Hp) as [->| ->].
    + rewrite Hl in Hy. injection Hy as <-. lia.
    + apply lookup_lt_Some in Hy. lia.
Qed.

Lemma siftup_loop_spec n : ∀ (heap : list A) pos newitem,
  length heap - pos ≤ n → pos < length heap →
  hole_inv key (<[pos := newitem]> heap) pos →
  ∃ heap' pos',
    siftup_loop heap (length heap) pos = Return (heap', pos') ∧
    pos' < length heap' ∧ length heap' ≤ 2 * pos' + 1 ∧
    hole_inv key (<[pos' := newitem]> heap') pos' ∧
    <[pos' := newitem]> heap' ≡ₚ <[pos := newitem]> heap.
Proof.
  induction n as [|n IH]; intros heap pos newitem Hn Hlen Hinv; [lia|].
  rewrite siftup_loop_step.
  case_decide as Hkid;
    [|exists heap, pos; split_and!; [done..|lia|done|done]].
  destruct (smaller_child_spec heap pos Hkid)
    as (c & y & -> & Hy & Hc & Hpc & Hsib).
  pose proof (parentpos_of_lt c Hc) as Hcpos. rewrite Hpc in Hcpos.
  pose proof (lookup_lt_Some _ _ _ Hy) as Hclen.
  cbn [mbind outcome_bind]. unfold getitem at 1. rewrite Hy.
  cbn [mbind outcome_bind]. unfold setitem at 1.
  rewrite decide_True by done. cbn [mbind outcome_bind].
  set (V := <[pos := newitem]> heap) in *.
  assert (HVpos : V !! pos = Some newitem)
    by (by apply list_lookup_insert_eq).
  assert (HVne : ∀ k, k ≠ pos → V !! k = heap !! k)
    by (intros k Hk; unfold V; by rewrite list_lookup_insert_ne).
  assert (HV' : <[c := newitem]> (<[pos := y]> heap)
                = <[c := newitem]> (<[pos := y]> V))
    by (unfold V; by rewrite list_insert_insert_eq).
  destruct (IH (<[pos := y]> heap) c newitem)
    as (heap' & pos' & Hrun & Hlen' & Hleaf & Hhole & Hperm).
  - rewrite length_insert. lia.
  - by rewrite length_insert.
  - rewrite HV'.
  apply hole_inv_down; [done|by rewrite HVne by lia|done..| |done].
    intros c' Hc' Hpc' a b.
    pose proof (parentpos_of_lt c' Hc').
    rewrite !HVne by lia. by apply Hsib.
  - rewrite length_insert in Hrun. exists heap', pos'.
    split_and!; [done..|]. rewrite Hperm, HV'.
    eapply swap_Permutation; [done|]. by rewrite HVne by lia.
Qed.

Lemma _siftup_spec (heap : list A) :
  0 < length heap → hole_inv key heap 0 →
  ∃ heap', _siftup heap 0 = Return heap' ∧
           heap_inv key heap' ∧ heap' ≡ₚ heap.
Proof.
  intros Hlen Hinv.
  destruct (lookup_lt_is_Some_2 heap 0 Hlen) as [newitem Hnew].
  unfold _siftup, getitem at 1. rewrite Hnew. cbn [mbind outcome_bind].
  destruct (siftup_loop_spec (length heap) heap 0 newitem)
    as (heap1 & pos1 & -> & Hlen1 & Hleaf & Hhole & Hperm);
    [lia|done|by rewrite list_insert_id|].
  cbn [mbind outcome_bind]. unfold setitem at 1.
  rewrite decide_True by done. cbn [mbind outcome_bind].
  rewrite (list_insert_id heap 0 newitem) in Hperm by done.
  destruct (_siftdown_spec (<[pos1 := newitem]> heap1) pos1)
    as (heap' & -> & Hheap & Hperm').
  - by rewrite length_insert.
  - split; [done|]. intros c Hc Hpc x y _ Hy.
    apply lookup_lt_Some in Hy. rewrite length_insert in Hy.
    apply parentpos_of_child in Hpc; [lia|done].
  - exists heap'. split_and!; [done..|]. by rewrite Hperm'.
Qed.

Lemma heap_inv_take (h : list A) n :
  heap_inv key h → heap_inv key (take n h).
Proof.
  intros Hh i Hi x y Hx Hy.
  apply lookup_take_Some in Hx as [Hx _], Hy as [Hy _]. by eapply Hh.
Qed.

Lemma heap_inv_nil : heap_inv key [].
Proof. by intros i Hi x y Hx. Qed.

Theorem heappush_spec (heap : list A) item :
  heap_inv key heap →
  ∃ heap', heappush heap item = Return heap' ∧
           heap_inv key heap' ∧ heap' ≡ₚ heap ++ [item].
Proof.
  intros Hh. unfold heappush. rewrite length_app. simpl.
  replace (length heap + 1 - 1) with (length heap) by lia.
  apply _siftdown_spec; [rewrite length_app; simpl; lia|].
  assert (Hout : ∀ c, 0 < c → parentpos_of c = length heap →
                      (heap ++ [item]) !! c = None).
  { intros c Hc Hpc. apply lookup_ge_None. rewrite length_app. simpl.
    apply parentpos_of_child in Hpc; [lia|done]. }
  split; [split|].
  - intros i Hi Hne Hpne x y Hx Hy.
    pose proof (parentpos_of_lt i Hi).
    pose proof (lookup_lt_Some _ _ _ Hy) as Hlt.
    rewrite length_app in Hlt. simpl in Hlt.
    rewrite lookup_app_l in Hx, Hy by lia. by eapply Hh.
  - intros _ c Hc Hpc x y _ Hy. by rewrite Hout in Hy.
  - intros c Hc Hpc x y _ Hy. by rewrite Hout in Hy.
Qed.

Theorem heappop_spec (heap : list A) :
  heap_inv key heap → heap ≠ [] →
  ∃ r heap', heappop heap = Return (r, heap') ∧ heap !! 0 = Some r ∧
             heap_inv key heap' ∧ r :: heap' ≡ₚ heap.
Proof.
  intros Hh Hne.
  destruct (proj2 (last_is_Some heap) Hne) as [lastelt Hlast].
  pose proof Hlast as Hsnoc. apply last_Some in Hsnoc as [front ->].
  unfold heappop, list_pop. rewrite Hlast. cbn [mbind outcome_bind].
  rewrite length_app. simpl.
  replace (length front + 1 - 1) with (length front) by lia.
  rewrite take_app_length. case_decide as Hfront.
  - destruct front as [|r rest]; [done|].
    unfold getitem at 1, setitem at 1. simpl.
    destruct (_siftup_spec (lastelt :: rest))
    as (heap' & -> & Hheap & Hperm).
    + simpl. lia.
    + split; [|lia]. intros i Hi _ Hpi x y Hx Hy.
      pose proof (parentpos_of_lt i Hi).
      destruct i as [|i]; [lia|].
      destruct (parentpos_of (S i)) as [|q] eqn:Hq; [done|].
      simpl in Hx, Hy. pose proof (lookup_lt_Some _ _ _ Hy).
      eapply (Hh (S i)); [lia| |].
      * rewrite Hq. simpl. by rewrite lookup_app_l by lia.
      * simpl. by rewrite lookup_app_l by lia.
    + exists r, heap'. split_and!; [done..|].
      rewrite Hperm. simpl. rewrite (Permutation_app_comm rest). done.
  - subst front. simpl.
    exists lastelt, []. split_and!; [done..|apply heap_inv_nil|done].
Qed.

Lemma heap_root_max (h : list A) r :
  heap_inv key h → h !! 0 = Some r → ∀ x, x ∈ h → (key x ≤ key r)%Z.
Proof.
  intros Hh Hr x [i Hi]%list_elem_of_lookup. revert x Hi.
  induction i as [i IH] using lt_wf_ind. intros x Hi.
  destruct (decide (i = 0)) as [->|Hne].
  { rewrite Hr in Hi. injection Hi as <-. lia. }
  assert (0 < i) as Hpos by lia.
  pose proof (parentpos_of_lt i Hpos) as Hq.
  destruct (lookup_lt_is_Some_2 h (parentpos_of i)) as [p Hp].
  { apply lookup_lt_Some in Hi. lia. }
  pose proof (IH _ Hq p Hp). pose proof (Hh i Hpos p x Hp Hi). lia.
Qed.

End heapq_correct.


(** ** heapq permutes, whatever the order of the list *)

Section heapq_perm.
Context {A : Type} `{!PyLt A}.

Lemma siftdown_loop_perm pos : ∀ (heap : list A) newitem startpos,
  pos < length heap →
  ∃ heap' pos',
    siftdown_loop heap newitem startpos pos = Return (heap', pos') ∧
    pos' < length heap' ∧
    <[pos' := newitem]> heap' ≡ₚ <[pos := newitem]> heap.
Proof.
  induction pos as [pos IH] using lt_wf_ind.
  intros heap newitem startpos Hlen.
  rewrite siftdown_loop_step.
  case_decide as Hpos; [|by exists heap, pos].
  assert (0 < pos) as Hpos0 by lia.
  pose proof (parentpos_of_lt pos Hpos0) as Hq.
  destruct (lookup_lt_is_Some_2 heap (parentpos_of pos)) as [parent Hp];
    [lia|].
  unfold getitem at 1. rewrite Hp. cbn [mbind outcome_bind].
  destruct (py_lt newitem parent); [|by exists heap, pos].
  unfold setitem at 1. rewrite decide_True by done.
  cbn [mbind outcome_bind].
  destruct (IH (parentpos_of pos) Hq (<[pos := parent]> heap) newitem
               startpos) as (heap' & pos' & Hrun & Hlen' & Hperm).
  { rewrite length_insert. lia. }
  exists heap', pos'. split_and!; [done..|]. rewrite Hperm.
  rewrite <-(list_insert_insert_eq heap pos parent newitem).
  eapply swap_Permutation.
  - by apply list_lookup_insert_eq.
  - by rewrite list_lookup_insert_ne by lia.
Qed.

Lemma heappush_perm (heap : list A) item :
  ∃ heap', heappush heap item = Return heap' ∧ heap' ≡ₚ heap ++ [item].
Proof.
  unfold heappush, _siftdown. rewrite length_app. simpl.
  replace (length heap + 1 - 1) with (length heap) by lia.
  unfold getitem at 1. rewrite lookup_app_r, Nat.sub_diag by lia. simpl.
  destruct (siftdown_loop_perm (length heap) (heap ++ [item]) item 0)
    as (heap' & pos' & -> & Hlen' & Hperm).
  { rewrite length_app. simpl. lia. }
  simpl. unfold setitem. rewrite decide_True by done.
  eexists. split; [done|]. rewrite Hperm.
  rewrite list_insert_id; [done|].
  by rewrite lookup_app_r, Nat.sub_diag by lia.
Qed.
End heapq_perm.

(** ** The queue of a doctor *)

Lemma Patient_lt_key (a b : Patient) :
  py_lt a b = (priority b <? priority a)%Z.
Proof. done. Qed.

Lemma add_patient_perm (d : Doctor) (p : Patient) :
  ∃ q, add_patient d p = Return (set_queue d q) ∧ q ≡ₚ queue d ++ [p].
Proof.
  unfold add_patient.
  destruct (heappush_perm (queue d) p) as (q & -> & Hperm). by exists q.
Qed.

Lemma add_patient_heap (d d' : Doctor) (p : Patient) :
  heap_inv priority (queue d) → add_patient d p = Return d' →
  heap_inv priority (queue d').
Proof.
  intros Hh. unfold add_patient.
  destruct (heappush_spec priority Patient_lt_key (queue d) p Hh)
    as (q & -> & Hq & _).
  by intros [= <-].
Qed.

Lemma push_all_spec (ps : list Patient) : ∀ d : Doctor,
  heap_inv priority (queue d) →
  ∃ q, push_all ps d = Return (set_queue d q) ∧
       heap_inv priority q ∧ q ≡ₚ queue d ++ ps.
Proof.
  induction ps as [|p ps IH]; intros d Hh; simpl.
  - exists (queue d). split_and!; [by destruct d|done|by rewrite app_nil_r].
  - destruct (add_patient_perm d p) as (q1 & Hadd & Hperm1).
    pose proof (add_patient_heap _ _ _ Hh Hadd) as Hh1.
    rewrite Hadd. simpl.
    destruct (IH (set_queue d q1) Hh1) as (q & Hrun & Hq & Hperm).
    exists q. split_and!; [done..|].
    rewrite Hperm. simpl. rewrite Hperm1. by rewrite <-app_assoc.
Qed.

Lemma drain_empty (m : nat) (d : Doctor) :
  queue d = [] → drain m d = Return (replicate m None, d).
Proof.
  intros Hq. induction m as [|m IH]; simpl; [done|].
  unfold next_patient. rewrite decide_False by (by rewrite Hq; intros ?).
  simpl. by rewrite IH.
Qed.

Lemma drain_spec (n : nat) : ∀ (d : Doctor) (m : nat),
  heap_inv priority (queue d) → length (queue d) = n →
  ∃ out, drain (n + m) d
         = Return ((Some <$> out) ++ replicate m None, set_queue d []) ∧
         out ≡ₚ queue d ∧
         StronglySorted (λ a b, (priority b ≤ priority a)%Z) out.
Proof.
  induction n as [|n IH]; intros d m Hh Hlen.
  - apply length_zero_iff_nil in Hlen. exists []. simpl.
    rewrite drain_empty by done. rewrite Hlen.
    split_and!; [by destruct d; simpl in *; subst|done|constructor].
  - assert (queue d ≠ []) as Hne by (intros Hq; by rewrite Hq in Hlen).
    destruct (heappop_spec priority Patient_lt_key (queue d) Hh Hne)
      as (r & q & Hpop & Hroot & Hq & Hperm).
    simpl. unfold next_patient. rewrite decide_True by done.
    rewrite Hpop. simpl.
    destruct (IH (set_queue d q) m Hq) as (out & Hrun & Hout & Hsorted).
    { simpl. apply Permutation_length in Hperm. simpl in Hperm. lia. }
    rewrite Hrun. simpl. exists (r :: out). split_and!; [done| |].
    + simpl in Hout. by rewrite Hout.
    + constructor; [done|]. apply Forall_forall. intros x Hx.
      apply (heap_root_max priority (queue d) r Hh Hroot).
      rewrite <-Hperm. right. simpl in Hout. by rewrite <-Hout.
Qed.

(** C5. After the patients [ps] have been pushed onto the empty queue of a
    doctor, [length ps] calls of [next_patient] return those patients, each
    once, in non-increasing order of priority, and leave the queue empty;
    every later call returns [None] and raises nothing. *)
Theorem C5_drain_in_priority_order (d : Doctor) (ps : list Patient)
    (m : nat) :
  ∃ q out,
    push_all ps (set_queue d []) = Return (set_queue d q) ∧
    drain (length ps + m) (set_queue d q)
    = Return ((Some <$> out) ++ replicate m None, set_queue d []) ∧
    out ≡ₚ ps ∧ length out = length ps ∧
    StronglySorted (λ a b, (priority b ≤ priority a)%Z) out.
Proof.
  destruct (push_all_spec ps (set_queue d []))
    as (q & Hpush & Hheap & Hperm); [apply heap_inv_nil|].
  simpl in Hpush, Hperm.
  destruct (drain_spec (length ps) (set_queue d q) m)
    as (out & Hdrain & Hout & Hsorted);
    [done|simpl; by rewrite Hperm|].
  simpl in Hdrain, Hout. exists q, out. split_and!; try done.
  - by rewrite Hout, Hperm.
  - by rewrite Hout, Hperm.
Qed.

(** ** Rounding to a double *)

Lemma Qfloor_unique (x : Q) (k : Z) :
  (inject_Z k <= x)%Q → (x < inject_Z (k + 1))%Q → Qfloor x = k.
Proof.
  intros Hlo Hhi.
  pose proof (Qfloor_le x) as Hf. pose proof (Qlt_floor x) as Hc.
  assert (inject_Z k < inject_Z (Qfloor x + 1))%Q as H1
    by (eapply Qle_lt_trans; eauto).
  assert (inject_Z (Qfloor x) < inject_Z (k + 1))%Q as H2
    by (eapply Qle_lt_trans; eauto).
  rewrite <-Zlt_Qlt in H1, H2. lia.
Qed.

Lemma two_pow_pos (e : Z) : (0 < 2 ^ e)%Q.
Proof. by apply Qpower_0_lt. Qed.

Lemma two_pow_succ (e : Z) : (2 ^ (e + 1) == 2 * 2 ^ e)%Q.
Proof. rewrite Qpower_plus by done. rewrite Qpower_1_r. ring. Qed.

Lemma two_pow_inject (n : Z) : (0 ≤ n)%Z → (inject_Z (2 ^ n) == 2 ^ n)%Q.
Proof. intros Hn. by rewrite Zpower_Qpower. Qed.

Lemma ilog2_spec (x : Q) :
  (0 < x)%Q → (2 ^ ilog2 x <= x)%Q ∧ (x < 2 ^ (ilog2 x + 1))%Q.
Proof.
  intros Hx. unfold ilog2. destruct (Qle_bool 1 x) eqn:Hb.
  - apply Qle_bool_iff in Hb.
    assert (1 ≤ Qfloor x)%Z as Hf.
    { change 1%Z with (Qfloor (inject_Z 1)). by apply Qfloor_resp_le. }
    destruct (Z.log2_spec (Qfloor x)) as [Hlo Hhi]; [lia|].
    pose proof (Z.log2_nonneg (Qfloor x)) as Hl.
    pose proof (Qfloor_le x) as H1. pose proof (Qlt_floor x) as H2.
    rewrite Zle_Qle in Hlo. rewrite two_pow_inject in Hlo by done.
    assert (Qfloor x + 1 ≤ 2 ^ (Z.log2 (Qfloor x) + 1))%Z as Hhi'
      by (replace (Z.succ (Z.log2 (Qfloor x)))
            with (Z.log2 (Qfloor x) + 1)%Z in Hhi by lia; lia).
    rewrite Zle_Qle in Hhi'. rewrite two_pow_inject in Hhi' by lia.
    split; [lra|]. eapply Qlt_le_trans; eauto.
  - assert (x < 1)%Q as Hlt.
    { apply Qnot_le_lt. intros Hle. apply Qle_bool_iff in Hle. congruence. }
    assert (0 < / x)%Q as Hinv by (by apply Qinv_lt_0_compat).
    assert (x * / x == 1)%Q as Hxx by (apply Qmult_inv_r; lra).
    remember (/ x)%Q as ix eqn:Eix. clear Eix.
    set (c := Qceiling ix). set (m := Z.log2_up c).
    pose proof (Qle_ceiling ix) as H1. pose proof (Qceiling_lt ix) as H2.
    fold c in H1, H2.
    assert (1 < ix)%Q as Hgt.
    { apply Qnot_le_lt. intros Hcon.
      assert (x * ix < 1 * 1)%Q; [|lra].
      apply Qlt_le_trans with (1 * ix)%Q; [by apply Qmult_lt_r|].
      by apply Qmult_le_l. }
    assert (1 < c)%Z as Hc.
    { assert (inject_Z 1 < inject_Z c)%Q as H
        by (apply Qlt_le_trans with ix; [exact Hgt|exact H1]).
      by rewrite <-Zlt_Qlt in H. }
    destruct (Z.log2_up_spec c Hc) as [Hlo Hhi]. fold m in Hlo, Hhi.
    assert (0 < m)%Z as Hm by (by apply Z.log2_up_pos).
    assert (2 ^ (m - 1) ≤ c - 1)%Z as Hlo'
      by (replace (Z.pred m) with (m - 1)%Z in Hlo by lia; lia).
    rewrite Zle_Qle in Hlo', Hhi.
    rewrite two_pow_inject in Hlo', Hhi by lia.
    pose proof (two_pow_pos m) as Hp. pose proof (two_pow_pos (m - 1)) as Hp'.
    assert (2 ^ (- m) * 2 ^ m == 1)%Q as E1.
    { rewrite <-Qpower_plus by done. by replace (- m + m)%Z with 0%Z by lia. }
    assert (2 ^ (- m + 1) * 2 ^ (m - 1) == 1)%Q as E2.
    { rewrite <-Qpower_plus by done.
      by replace (- m + 1 + (m - 1))%Z with 0%Z by lia. }
    pose proof (two_pow_pos (- m)) as Hq. pose proof (two_pow_pos (-m + 1)) as Hq'.
    split.
    + apply Qnot_lt_le. intros Hcon.
      assert (x * ix < 2 ^ (- m) * 2 ^ m)%Q; [|lra].
      apply Qle_lt_trans with (x * 2 ^ m)%Q.
      * apply Qmult_le_l; [done|lra].
      * by apply Qmult_lt_r.
    + apply Qnot_le_lt. intros Hcon.
      assert (2 ^ (- m + 1) * 2 ^ (m - 1) < x * ix)%Q; [|lra].
      apply Qle_lt_trans with (x * 2 ^ (m - 1))%Q.
      * by apply Qmult_le_r.
      * apply Qmult_lt_l; [done|].
        by apply Qle_lt_trans with (inject_Z (c - 1)).
Qed.

Lemma round_half_even_floor (x : Q) :
  (Qfloor x ≤ round_half_even x ≤ Qfloor x + 1)%Z.
Proof.
  unfold round_half_even.
  destruct (x - inject_Z (Qfloor x) ?= 1 # 2)%Q; [destruct (Z.even _)|..]; lia.
Qed.

Lemma round_half_even_bounds (x : Q) :
  (x - (1 # 2) <= inject_Z (round_half_even x))%Q
  ∧ (inject_Z (round_half_even x) <= x + (1 # 2))%Q.
Proof.
  unfold round_half_even.
  pose proof (Qfloor_le x) as Hf. pose proof (Qlt_floor x) as Hc.
  rewrite inject_Z_plus in Hc. change (inject_Z 1) with 1%Q in Hc.
  destruct (Qcompare_spec (x - inject_Z (Qfloor x)) (1 # 2)) as [He|Hl|Hg];
    [destruct (Z.even _)|..];
    rewrite ?inject_Z_plus; change (inject_Z 1) with 1%Q; split; lra.
Qed.

Lemma round_half_even_Z (n : Z) : round_half_even (inject_Z n) = n.
Proof.
  unfold round_half_even. rewrite Qfloor_Z.
  destruct (Qcompare_spec (inject_Z n - inject_Z n) (1 # 2)) as [He|Hl|Hg];
    [lra|done|lra].
Qed.

Lemma round_half_even_comp (x y : Q) :
  (x == y)%Q → round_half_even x = round_half_even y.
Proof.
  intros E. unfold round_half_even. rewrite (Qfloor_comp x y E).
  assert ((x - inject_Z (Qfloor y) ?= 1 # 2)%Q
          = (y - inject_Z (Qfloor y) ?= 1 # 2)%Q) as ->; [|done].
  apply Qcompare_comp; [by rewrite E|reflexivity].
Qed.

Lemma round_half_even_mono (x y : Q) :
  (x <= y)%Q → (round_half_even x ≤ round_half_even y)%Z.
Proof.
  intros Hxy. pose proof (Qfloor_resp_le x y Hxy) as Hf.
  destruct (decide (Qfloor x = Qfloor y)) as [E|NE].
  - unfold round_half_even. rewrite E.
    destruct (Qcompare_spec (x - inject_Z (Qfloor y)) (1 # 2)) as [He|Hl|Hg];
      destruct (Qcompare_spec (y - inject_Z (Qfloor y)) (1 # 2))
        as [He'|Hl'|Hg'];
      try destruct (Z.even _); try lia; lra.
  - pose proof (round_half_even_floor x). pose proof (round_half_even_floor y).
    lia.
Qed.

Lemma round_half_even_ge (x : Q) (n : Z) :
  (inject_Z n <= x)%Q → (n ≤ round_half_even x)%Z.
Proof.
  intros H. rewrite <-(round_half_even_Z n). by apply round_half_even_mono.
Qed.

Lemma round_half_even_le (x : Q) (n : Z) :
  (x <= inject_Z n)%Q → (round_half_even x ≤ n)%Z.
Proof.
  intros H. rewrite <-(round_half_even_Z n). by apply round_half_even_mono.
Qed.

Lemma round_half_even_lt (x : Q) (n : Z) :
  (x + (1 # 2) < inject_Z n)%Q → (round_half_even x < n)%Z.
Proof.
  intros H. destruct (round_half_even_bounds x) as [_ Hhi].
  rewrite Zlt_Qlt. lra.
Qed.

(** *** Rounding a positive number *)

Lemma round_pos_bounds (x : Q) :
  (0 < x)%Q →
  (2 ^ ilog2 x <= round_pos x)%Q ∧ (round_pos x <= 2 ^ (ilog2 x + 1))%Q.
Proof.
  intros Hx. destruct (ilog2_spec x Hx) as [Hlo Hhi]. unfold round_pos.
  set (l := ilog2 x) in *. pose proof (two_pow_pos (l - 52)) as Hu.
  assert (2 ^ l == inject_Z (2 ^ 52) * 2 ^ (l - 52))%Q as El.
  { rewrite two_pow_inject by lia. rewrite <-Qpower_plus by done.
    by replace (52 + (l - 52))%Z with l by lia. }
  assert (2 ^ (l + 1) == inject_Z (2 ^ 53) * 2 ^ (l - 52))%Q as El'.
  { rewrite two_pow_inject by lia. rewrite <-Qpower_plus by done.
    by replace (53 + (l - 52))%Z with (l + 1)%Z by lia. }
  rewrite El, El'. rewrite El in Hlo. rewrite El' in Hhi.
  set (u := (2 ^ (l - 52))%Q) in *.
  split; apply Qmult_le_r; try done; rewrite <-Zle_Qle.
  - apply round_half_even_ge. by apply Qle_shift_div_l.
  - apply round_half_even_le. apply Qle_shift_div_r; [done|]. lra.
Qed.

Lemma round_pos_mono (x y : Q) :
  (0 < x)%Q → (x <= y)%Q → (round_pos x <= round_pos y)%Q.
Proof.
  intros Hx Hxy. assert (0 < y)%Q as Hy by lra.
  destruct (ilog2_spec x Hx) as [Hxl Hxh].
  destruct (ilog2_spec y Hy) as [Hyl Hyh].
  assert (ilog2 x < ilog2 y + 1)%Z as Hl.
  { apply (Qpower_lt_compat_l_inv 2); [lra|done]. }
  destruct (decide (ilog2 x = ilog2 y)) as [E|NE].
  - unfold round_pos. rewrite E.
    pose proof (two_pow_pos (ilog2 y - 52)) as Hu.
    apply Qmult_le_r; [done|]. rewrite <-Zle_Qle.
    apply round_half_even_mono.
    apply Qmult_le_r; [by apply Qinv_lt_0_compat|done].
  - destruct (round_pos_bounds x Hx) as [_ Hx'].
    destruct (round_pos_bounds y Hy) as [Hy' _].
    assert (2 ^ (ilog2 x + 1) <= 2 ^ ilog2 y)%Q
      by (apply Qpower_le_compat_l; [lia|done]).
    lra.
Qed.

Lemma round_pos_pos (x : Q) : (0 < x)%Q → (0 < round_pos x)%Q.
Proof.
  intros Hx. destruct (round_pos_bounds x Hx) as [H _].
  pose proof (two_pow_pos (ilog2 x)). lra.
Qed.

(** *** Rounding any number *)

Lemma Qnum_sign (x : Q) :
  match Qnum x with
  | Z0 => (x == 0)%Q
  | Zpos _ => (0 < x)%Q
  | Zneg _ => (x < 0)%Q
  end.
Proof. destruct x as [[|n|n] d]; unfold Qeq, Qlt; simpl; lia. Qed.

Lemma binary64_mono (x y : Q) :
  (x <= y)%Q → (binary64 x <= binary64 y)%Q.
Proof.
  intros Hxy. unfold binary64.
  pose proof (Qnum_sign x) as Sx. pose proof (Qnum_sign y) as Sy.
  destruct (Qnum x), (Qnum y); try lra.
  - pose proof (round_pos_pos y Sy). lra.
  - by apply round_pos_mono.
  - assert (0 < - x)%Q as Hx by lra. pose proof (round_pos_pos _ Hx). lra.
  - assert (0 < - x)%Q as Hx by lra. pose proof (round_pos_pos _ Hx).
    pose proof (round_pos_pos y Sy). lra.
  - assert (0 < - y)%Q as Hy by lra.
    assert (round_pos (- y) <= round_pos (- x))%Q
      by (apply round_pos_mono; lra).
    lra.
Qed.

(** *** Integers and the grid of doubles below 2^53 *)

Lemma ulp_inv (l : Z) :
  (l ≤ 52)%Z → (inject_Z (2 ^ (52 - l)) * 2 ^ (l - 52) == 1)%Q.
Proof.
  intros Hl. rewrite two_pow_inject by lia. rewrite <-Qpower_plus by done.
  by replace (52 - l + (l - 52))%Z with 0%Z by lia.
Qed.

Lemma round_pos_ge_Z (x : Q) (n : Z) :
  (ilog2 x ≤ 52)%Z → (inject_Z n <= x)%Q → (inject_Z n <= round_pos x)%Q.
Proof.
  intros Hl Hn. unfold round_pos. pose proof (ulp_inv _ Hl) as E.
  pose proof (two_pow_pos (ilog2 x - 52)) as Hu.
  set (u := (2 ^ (ilog2 x - 52))%Q) in *.
  set (P := (2 ^ (52 - ilog2 x))%Z) in *.
  assert (inject_Z n == inject_Z (n * P) * u)%Q as ->.
  { rewrite inject_Z_mult, <-Qmult_assoc, E. ring. }
  apply Qmult_le_r; [done|]. rewrite <-Zle_Qle. apply round_half_even_ge.
  apply Qle_shift_div_l; [done|].
  rewrite inject_Z_mult, <-Qmult_assoc, E. lra.
Qed.

Lemma round_pos_lt_Z (x : Q) (n : Z) :
  (ilog2 x ≤ 52)%Z → (x + 2 ^ (ilog2 x - 53) < inject_Z n)%Q →
  (round_pos x < inject_Z n)%Q.
Proof.
  intros Hl Hn. unfold round_pos. pose proof (ulp_inv _ Hl) as E.
  pose proof (two_pow_pos (ilog2 x - 52)) as Hu.
  assert (2 ^ (ilog2 x - 52) == 2 * 2 ^ (ilog2 x - 53))%Q as E2.
  { rewrite <-two_pow_succ. by replace (ilog2 x - 53 + 1)%Z
      with (ilog2 x - 52)%Z by lia. }
  set (h := (2 ^ (ilog2 x - 53))%Q) in *.
  set (u := (2 ^ (ilog2 x - 52))%Q) in *.
  set (P := (2 ^ (52 - ilog2 x))%Z) in *.
  assert (inject_Z n == inject_Z (n * P) * u)%Q as ->.
  { rewrite inject_Z_mult, <-Qmult_assoc, E. ring. }
  apply Qmult_lt_r; [done|]. rewrite <-Zlt_Qlt. apply round_half_even_lt.
  assert (x / u + (1 # 2) == (x + h) / u)%Q as ->.
  { field_simplify_eq; [rewrite E2; ring|lra]. }
  apply Qlt_shift_div_r; [done|].
  rewrite inject_Z_mult, <-Qmult_assoc, E. lra.
Qed.

Lemma round_pos_le_half (x : Q) :
  (round_pos x <= x + 2 ^ (ilog2 x - 53))%Q.
Proof.
  unfold round_pos. pose proof (two_pow_pos (ilog2 x - 52)) as Hu.
  assert (2 ^ (ilog2 x - 52) == 2 * 2 ^ (ilog2 x - 53))%Q as E2.
  { rewrite <-two_pow_succ. by replace (ilog2 x - 53 + 1)%Z
      with (ilog2 x - 52)%Z by lia. }
  set (h := (2 ^ (ilog2 x - 53))%Q) in *.
  set (u := (2 ^ (ilog2 x - 52))%Q) in *.
  destruct (round_half_even_bounds (x / u)) as [_ Hhi].
  assert (x + h == (x / u + (1 # 2)) * u)%Q as ->.
  { field_simplify_eq; [rewrite E2; ring|lra]. }
  by apply Qmult_le_r.
Qed.

Lemma ilog2_lt (x : Q) (n : Z) :
  (0 < x)%Q → (x < 2 ^ n)%Q → (ilog2 x < n)%Z.
Proof.
  intros Hx Hn. destruct (ilog2_spec x Hx) as [Hlo _].
  apply (Qpower_lt_compat_l_inv 2); [lra|done].
Qed.

(** ** The priority model *)

Lemma total_seconds_mono (td1 td2 : timedelta) :
  (td1 ≤ td2)%Z → (total_seconds td1 <= total_seconds td2)%Q.
Proof.
  intros H. apply binary64_mono. unfold Qle. simpl. lia.
Qed.

Lemma floordiv_mono (a b : Q) :
  (a <= b)%Q → (floordiv a (60 # 1) ≤ floordiv b (60 # 1))%Z.
Proof.
  intros H. apply Qfloor_resp_le. apply Qmult_le_r; [done|exact H].
Qed.

Lemma floordiv_total_seconds_mono (td1 td2 : timedelta) :
  (td1 ≤ td2)%Z →
  (floordiv (total_seconds td1) (60 # 1)
   ≤ floordiv (total_seconds td2) (60 # 1))%Z.
Proof. intros H. by apply floordiv_mono, total_seconds_mono. Qed.

Lemma floordiv_total_seconds_0 :
  floordiv (total_seconds 0%Z) (60 # 1) = 0%Z.
Proof. reflexivity. Qed.

Lemma floordiv_total_seconds_neg (td : timedelta) :
  (td < 0)%Z → (floordiv (total_seconds td) (60 # 1) < 0)%Z.
Proof.
  intros H. unfold floordiv, total_seconds, binary64.
  destruct td as [|n|n]; try lia. simpl Qnum. cbv match.
  assert (0 < - (Z.neg n # 1000000))%Q as Hx by done.
  pose proof (round_pos_pos _ Hx) as Hr.
  rewrite Zlt_Qlt. eapply Qle_lt_trans; [apply Qfloor_le|].
  apply Qlt_shift_div_r; [done|]. change (inject_Z 0) with 0%Q. lra.
Qed.

(** below 2^34 seconds the doubles are at most 2^-19 apart, less than two
    microseconds: no number of microseconds is rounded onto or across a
    whole second *)
Lemma floordiv_total_seconds (td : timedelta) :
  (0 ≤ td < 17179869184000000)%Z →
  floordiv (total_seconds td) (60 # 1) = (td `div` 60000000)%Z.
Proof.
  intros [H0 Hb]. destruct (decide (td = 0%Z)) as [->|Hne]; [done|].
  unfold floordiv, total_seconds, binary64.
  destruct td as [|n|n]; try lia. simpl Qnum. cbv match.
  set (x := (Z.pos n # 1000000)%Q). assert (0 < x)%Q as Hx by done.
  assert (ilog2 x < 34)%Z as Hl.
  { apply ilog2_lt; [done|]. unfold x, Qlt. simpl. lia. }
  set (k := (Z.pos n `div` 60000000)%Z).
  pose proof (Z.mul_div_le (Z.pos n) 60000000) as Hk1.
  pose proof (Z.mul_succ_div_gt (Z.pos n) 60000000) as Hk2. fold k in Hk1, Hk2.
  assert (inject_Z (60 * k) <= round_pos x)%Q as Hlo.
  { apply round_pos_ge_Z; [lia|]. unfold x, Qle. simpl. lia. }
  assert (round_pos x < inject_Z (60 * (k + 1)))%Q as Hhi.
  { apply round_pos_lt_Z; [lia|].
    apply Qle_lt_trans with (x + 2 ^ (-20))%Q.
    - apply Qplus_le_r. apply Qpower_le_compat_l; [lia|done].
    - unfold x, Qlt. simpl. lia. }
  rewrite inject_Z_mult in Hlo, Hhi. change (inject_Z 60) with 60%Q in Hlo, Hhi.
  apply Qfloor_unique.
  - apply Qle_shift_div_l; [done|]. lra.
  - apply Qlt_shift_div_r; [done|]. lra.
Qed.

(** below 2^53 seconds every whole second is a double: the floor division
    counts the whole minutes, or one more when the seconds were rounded up
    onto a minute *)
Lemma floordiv_total_seconds_near (td : timedelta) :
  (0 ≤ td < 9007199254740992000000)%Z →
  (td `div` 60000000 ≤ floordiv (total_seconds td) (60 # 1)
   ≤ td `div` 60000000 + 1)%Z.
Proof.
  intros [H0 Hb]. destruct (decide (td = 0%Z)) as [->|Hne]; [done|].
  unfold floordiv, total_seconds, binary64.
  destruct td as [|n|n]; try lia. simpl Qnum. cbv match.
  set (x := (Z.pos n # 1000000)%Q). assert (0 < x)%Q as Hx by done.
  assert (ilog2 x < 53)%Z as Hl.
  { apply ilog2_lt; [done|]. unfold x, Qlt. simpl. lia. }
  set (k := (Z.pos n `div` 60000000)%Z).
  pose proof (Z.mul_div_le (Z.pos n) 60000000) as Hk1.
  pose proof (Z.mul_succ_div_gt (Z.pos n) 60000000) as Hk2. fold k in Hk1, Hk2.
  assert (inject_Z (60 * k) <= round_pos x)%Q as Hlo.
  { apply round_pos_ge_Z; [lia|]. unfold x, Qle. simpl. lia. }
  assert (round_pos x < inject_Z (60 * (k + 2)))%Q as Hhi.
  { apply Qle_lt_trans with (x + 2 ^ 0)%Q.
    - eapply Qle_trans; [apply round_pos_le_half|].
      apply Qplus_le_r. apply Qpower_le_compat_l; [lia|done].
    - unfold x, Qlt. simpl. lia. }
  rewrite inject_Z_mult in Hlo, Hhi.
  change (inject_Z 60) with 60%Q in Hlo, Hhi.
  split.
  - apply Z.le_trans with (Qfloor (inject_Z k)); [by rewrite Qfloor_Z|].
    apply Qfloor_resp_le.
    apply Qle_shift_div_l; [done|]. lra.
  - assert (Qfloor (round_pos x / 60) < k + 2)%Z; [|lia].
    rewrite Zlt_Qlt. eapply Qle_lt_trans; [apply Qfloor_le|].
    apply Qlt_shift_div_r; [done|]. lra.
Qed.

Lemma source_priority_get (src : string) :
  dict_get ({[ "Walk-in" := (-1)%Z; "App" := 1%Z; "WhatsApp" := 0%Z ]}
            : gmap string Z) src 0%Z
  = source_adjustment src.
Proof.
  unfold dict_get, source_adjustment.
  destruct (decide (src = "Walk-in")) as [->|H1]; [done|].
  rewrite lookup_insert_ne by done.
  destruct (decide (src = "App")) as [->|H2]; [done|].
  rewrite lookup_insert_ne by done.
  destruct (decide (src = "WhatsApp")) as [->|H3]; [done|].
  by rewrite lookup_singleton_ne.
Qed.

(** the delay [calculate_priority] subtracts is the floor division of the
    seconds, cut at zero *)
Lemma calculate_priority_delay (p : Patient) :
  calculate_priority p
  = (urgency p * 10
     - Z.max 0 (floordiv
                  (total_seconds (arrival_time p - scheduled_time p)%Z)
                  (60 # 1))
     + source_adjustment (source p))%Z.
Proof. unfold calculate_priority. by rewrite source_priority_get. Qed.

Lemma max_floordiv_total_seconds (td : timedelta) :
  (td < 17179869184000000)%Z →
  Z.max 0 (floordiv (total_seconds td) (60 # 1))
  = Z.max 0 (td `div` 60000000)%Z.
Proof.
  intros Hb. destruct (decide (0 ≤ td)%Z) as [H0|Hneg].
  - by rewrite floordiv_total_seconds.
  - pose proof (floordiv_total_seconds_neg td).
    assert (td `div` 60000000 < 0)%Z by (apply Z.div_lt_upper_bound; lia).
    lia.
Qed.

Lemma max_floordiv_total_seconds_near (td : timedelta) :
  (td < 9007199254740992000000)%Z →
  (Z.max 0 (td `div` 60000000)
   ≤ Z.max 0 (floordiv (total_seconds td) (60 # 1))
   ≤ Z.max 0 (td `div` 60000000) + 1)%Z.
Proof.
  intros Hb. destruct (decide (0 ≤ td)%Z) as [H0|Hneg].
  - pose proof (floordiv_total_seconds_near td). lia.
  - pose proof (floordiv_total_seconds_neg td).
    assert (td `div` 60000000 < 0)%Z by (apply Z.div_lt_upper_bound; lia).
    lia.
Qed.

Lemma calculate_priority_formula (p : Patient) :
  (arrival_time p - scheduled_time p < 17179869184000000)%Z →
  calculate_priority p
  = (urgency p * 10 - delay_minutes p + source_adjustment (source p))%Z.
Proof.
  intros Hb. rewrite calculate_priority_delay.
  unfold delay_minutes, minutes_late.
  by rewrite max_floordiv_total_seconds.
Qed.

Lemma calculate_priority_near (p : Patient) :
  (arrival_time p - scheduled_time p < 9007199254740992000000)%Z →
  (urgency p * 10 - delay_minutes p + source_adjustment (source p) - 1
   ≤ calculate_priority p
   ≤ urgency p * 10 - delay_minutes p + source_adjustment (source p))%Z.
Proof.
  intros Hb. rewrite calculate_priority_delay.
  unfold delay_minutes, minutes_late.
  pose proof (max_floordiv_total_seconds_near _ Hb). lia.
Qed.

(** for fixed urgency and source, a longer time from the scheduled time to
    the arrival never gives the higher priority *)
Lemma calculate_priority_antitone (p1 p2 : Patient) :
  urgency p1 = urgency p2 → source p1 = source p2 →
  (arrival_time p1 - scheduled_time p1
   ≤ arrival_time p2 - scheduled_time p2)%Z →
  (calculate_priority p2 ≤ calculate_priority p1)%Z.
Proof.
  intros Hu Hs Ht. rewrite !calculate_priority_delay, Hu, Hs.
  pose proof (floordiv_total_seconds_mono _ _ Ht). lia.
Qed.

(** the fields [Patient.__init__] leaves in the object it builds *)
Lemma Patient_init_priority name_arg contact_arg sched_arg source_arg
    cond_arg (w : World) :
  let p := (Patient_init name_arg contact_arg sched_arg source_arg cond_arg
              w).1 in
  priority p = calculate_priority p.
Proof.
  unfold Patient_init, mbind, Sys_bind, mret, Sys_ret.
  repeat match goal with
         | |- context [let '(_, _) := ?m ?w in _] => destruct (m w)
         end.
  done.
Qed.

(** C1, as the code has it. For every patient whose arrival is less than
    2^34 seconds (17179869184 s, about 544 years) after the scheduled time,
    the computed priority is
    [urgency * 10 - delay_minutes + source_adjustment]: the delay is the
    floor of the minutes from the scheduled time to the arrival and is zero
    for an early or on-time arrival; the adjustment is -1 for Walk-in, +1
    for App, 0 for WhatsApp and 0 for any other source. This is what
    [calculate_priority] returns on every such record and what
    [Patient.__init__] stores in the [priority] field of every such patient
    it creates. From 2^34 seconds on, and below 2^53, the double
    [total_seconds()] returns may be a whole minute where the time is just
    under it, and the priority is the formula or one less. *)
Theorem C1_priority_formula :
  (∀ p : Patient,
     (arrival_time p - scheduled_time p < 17179869184000000)%Z →
     calculate_priority p
     = (urgency p * 10 - delay_minutes p + source_adjustment (source p))%Z)
  ∧ (∀ name_arg contact_arg sched_arg source_arg cond_arg (w : World),
       let p := (Patient_init name_arg contact_arg sched_arg source_arg
                   cond_arg w).1 in
       (arrival_time p - scheduled_time p < 17179869184000000)%Z →
       priority p
       = (urgency p * 10 - delay_minutes p
          + source_adjustment (source p))%Z)
  ∧ (∀ p : Patient,
       (arrival_time p - scheduled_time p < 9007199254740992000000)%Z →
       (urgency p * 10 - delay_minutes p + source_adjustment (source p) - 1
        ≤ calculate_priority p
        ≤ urgency p * 10 - delay_minutes p
          + source_adjustment (source p))%Z)
  ∧ (∀ (scheduled : datetime) (early : N),
       minutes_late scheduled (scheduled - Z.of_N early)%Z = 0%Z)
  ∧ source_adjustment "Walk-in" = (-1)%Z
  ∧ source_adjustment "App" = 1%Z
  ∧ source_adjustment "WhatsApp" = 0%Z
  ∧ (∀ src : string,
       src ∈ ["Walk-in"; "App"; "WhatsApp"] ∨ source_adjustment src = 0%Z).
Proof.
  split_and!; try done.
  - apply calculate_priority_formula.
  - intros ?????? p Hb. subst p. rewrite Patient_init_priority.
    by apply calculate_priority_formula.
  - apply calculate_priority_near.
  - intros scheduled early. unfold minutes_late.
    apply Z.max_l. apply Z.div_le_upper_bound; lia.
  - intros src. unfold source_adjustment.
    repeat case_decide; subst; auto; left; set_solver.
Qed.

Lemma C1_priority_formula_witness :
  let p := acute_patient 0 600000000 3 in
  (arrival_time p - scheduled_time p < 17179869184000000)%Z
  ∧ calculate_priority p
    = (urgency p * 10 - delay_minutes p + source_adjustment (source p))%Z.
Proof.
  split; [by vm_compute|].
  apply (proj1 C1_priority_formula (acute_patient 0 600000000 3)).
  by vm_compute.
Defined.

(** C1, as the specification states it, fails: a patient scheduled at
    midnight on 1000-01-01 (the instant 0 here) who arrives on 2023-12-31 at
    23:59:59.999999 is 32314291199.999999 seconds late. The double nearest
    to that is 32314291200.0, so the code subtracts 538571520 minutes where
    the floor of the minutes is 538571519. *)
Lemma C1_counterexample :
  let p := acute_patient 0 32314291199999999 3 in
  urgency p = 4%Z ∧ source p = "App"
  ∧ delay_minutes p = 538571519%Z
  ∧ (urgency p * 10 - delay_minutes p + source_adjustment (source p))%Z
    = (-538571478)%Z
  ∧ calculate_priority p = (-538571479)%Z
  ∧ priority p = (-538571479)%Z
  ∧ calculate_priority p
    ≠ (urgency p * 10 - delay_minutes p + source_adjustment (source p))%Z.
Proof. vm_compute. split_and!; done. Qed.

(** C2, as the code has it. For fixed urgency and source the priority is
    non-increasing in the time from the scheduled time to the arrival, so a
    patient more minutes overdue never has the higher priority; in
    particular, of two patients with equal source and urgency arriving at
    the same instant, the one scheduled earlier has a priority at most that
    of the other. *)
Theorem C2_priority_antitone_in_delay (p1 p2 : Patient) :
  urgency p1 = urgency p2 → source p1 = source p2 →
  ((arrival_time p1 - scheduled_time p1
    ≤ arrival_time p2 - scheduled_time p2)%Z →
   (calculate_priority p2 ≤ calculate_priority p1)%Z)
  ∧ ((delay_minutes p1 < delay_minutes p2)%Z →
     (calculate_priority p2 ≤ calculate_priority p1)%Z)
  ∧ (arrival_time p1 = arrival_time p2 →
     (scheduled_time p1 < scheduled_time p2)%Z →
     (calculate_priority p1 ≤ calculate_priority p2)%Z).
Proof.
  intros Hu Hs. split_and!.
  - by apply calculate_priority_antitone.
  - intros Hd. apply calculate_priority_antitone; [done..|].
    destruct (decide (arrival_time p1 - scheduled_time p1
                      ≤ arrival_time p2 - scheduled_time p2)%Z)
      as [|Hgt]; [done|].
    unfold delay_minutes, minutes_late in Hd.
    assert ((arrival_time p2 - scheduled_time p2) `div` 60000000
            ≤ (arrival_time p1 - scheduled_time p1) `div` 60000000)%Z
      by (apply Z.div_le_mono; lia).
    lia.
  - intros Ha Hlt. apply calculate_priority_antitone; [done..|]. lia.
Qed.

Lemma C2_priority_antitone_in_delay_witness :
  let p1 := acute_patient 0 600000000 3 in
  let p2 := acute_patient 600000000 600000000 3 in
  urgency p1 = urgency p2 ∧ source p1 = source p2
  ∧ arrival_time p1 = arrival_time p2
  ∧ (scheduled_time p1 < scheduled_time p2)%Z
  ∧ (calculate_priority p1 ≤ calculate_priority p2)%Z.
Proof.
  split; [reflexivity|]. split; [reflexivity|]. split; [reflexivity|].
  split; [by vm_compute|].
  apply (C2_priority_antitone_in_delay (acute_patient 0 600000000 3)
           (acute_patient 600000000 600000000 3));
    [reflexivity|reflexivity|reflexivity|by vm_compute].
Defined.

(** C2, as the specification states it, fails: two patients with the same
    source, condition and urgency arrive at the same instant; the one
    scheduled ten minutes earlier is the more overdue and has the strictly
    lower priority. *)
Lemma C2_counterexample :
  let p1 := acute_patient 0 600000000 3 in
  let p2 := acute_patient 600000000 600000000 3 in
  source p1 = source p2
  ∧ medical_condition p1 = medical_condition p2
  ∧ urgency p1 = urgency p2
  ∧ arrival_time p1 = arrival_time p2
  ∧ (scheduled_time p1 < scheduled_time p2)%Z
  ∧ (delay_minutes p2 < delay_minutes p1)%Z
  ∧ priority p1 = 31%Z ∧ priority p2 = 41%Z
  ∧ ¬ (priority p2 ≤ priority p1)%Z.
Proof. vm_compute. split_and!; try done. Qed.

(** the urgency [Patient.__init__] stores does not depend on the condition
    the patient is created with *)
Lemma Patient_init_urgency_any_condition name_arg contact_arg sched_arg
    source_arg (c1 c2 : condition) (w : World) :
  urgency (Patient_init name_arg contact_arg sched_arg source_arg (Some c1)
             w).1
  = urgency (Patient_init name_arg contact_arg sched_arg source_arg (Some c2)
               w).1.
Proof.
  unfold Patient_init, mbind, Sys_bind, mret, Sys_ret. simpl.
  repeat match goal with
         | |- context [let '(_, _) := ?m ?w in _] => destruct (m w)
         end.
  done.
Qed.

(** the priority is a function of urgency, scheduled time, arrival time and
    source *)
Lemma calculate_priority_deterministic (p1 p2 : Patient) :
  urgency p1 = urgency p2 → scheduled_time p1 = scheduled_time p2 →
  arrival_time p1 = arrival_time p2 → source p1 = source p2 →
  calculate_priority p1 = calculate_priority p2.
Proof.
  intros Hu Hs Ha Hsrc. unfold calculate_priority.
  by rewrite Hu, Hs, Ha, Hsrc.
Qed.

(** C3 fails on the code: a patient created with the condition
    [("Acute Pain", 4)] gets the urgency of the condition the random
    generator serves to [_calculate_urgency], here 1. *)
Theorem C3_urgency_ignores_condition :
  let p := acute_patient 0 0 0 in
  medical_condition p = ("Acute Pain", 4%Z) ∧ urgency p = 1%Z.
Proof. by vm_compute. Qed.

(** C9 fails on the code: two patients created with the same condition,
    scheduled time, arrival time and source differ in urgency and in
    priority, when the random generator serves different numbers. *)
Theorem C9_urgency_depends_on_random :
  let p1 := acute_patient 0 0 0 in
  let p2 := acute_patient 0 0 4 in
  medical_condition p1 = medical_condition p2
  ∧ scheduled_time p1 = scheduled_time p2
  ∧ arrival_time p1 = arrival_time p2
  ∧ source p1 = source p2
  ∧ urgency p1 = 1%Z ∧ urgency p2 = 5%Z
  ∧ priority p1 = 11%Z ∧ priority p2 = 51%Z.
Proof. by vm_compute. Qed.

(** ** The routing policy *)

Lemma _map_condition_to_specialization_spec (c : condition) :
  _map_condition_to_specialization c = required_specialization c.
Proof.
  unfold _map_condition_to_specialization, required_specialization, dict_get.
  destruct c as [cname sev]. simpl.
  destruct (decide (cname = "Chronic Disease Follow-up")) as [->|H1];
    [done|].
  rewrite lookup_insert_ne by done.
  destruct (decide (cname = "Acute Pain")) as [->|H2]; [done|].
  rewrite lookup_insert_ne by done.
  destruct (decide (cname = "Severe Symptoms")) as [->|H3]; [done|].
  by rewrite lookup_singleton_ne.
Qed.

Lemma dict_get_value_spec (k : Untyped.value) (s : string) :
  Untyped.dict_get
    ({[ "Chronic Disease Follow-up" := "Cardiology";
        "Acute Pain" := "Orthopedics";
        "Severe Symptoms" := "Neurology" ]} : gmap string string)
    k "General" = Return s →
  Untyped.hashable k = true
  ∧ named_specialization k s.
Proof.
  unfold Untyped.dict_get. destruct (Untyped.hashable k) eqn:Hh; [|done].
  intros [= <-]. split; [done|]. unfold named_specialization.
  assert (∀ n : string,
            Untyped.VStr n
            ∉ [Untyped.VStr "Chronic Disease Follow-up";
               Untyped.VStr "Acute Pain"; Untyped.VStr "Severe Symptoms"]
            ↔ n ≠ "Chronic Disease Follow-up" ∧ n ≠ "Acute Pain"
              ∧ n ≠ "Severe Symptoms") as Hin.
  { intros n. rewrite !not_elem_of_cons. split.
    - intros (H1 & H2 & H3 & _). split_and!; congruence.
    - intros (H1 & H2 & H3). split_and!; try congruence.
      apply not_elem_of_nil. }
  destruct k as [| | |n| |];
    try (do 3 right; split; [|done];
         rewrite !not_elem_of_cons; split_and!; try done;
         apply not_elem_of_nil).
  destruct (decide (n = "Chronic Disease Follow-up")) as [->|H1]; [auto|].
  rewrite lookup_insert_ne by done.
  destruct (decide (n = "Acute Pain")) as [->|H2]; [auto|].
  rewrite lookup_insert_ne by done.
  destruct (decide (n = "Severe Symptoms")) as [->|H3]; [auto 6|].
  rewrite lookup_singleton_ne by done.
  do 3 right. split; [by apply Hin|done].
Qed.

Lemma Untyped_map_Return (v : Untyped.value) (s : string) :
  Untyped._map_condition_to_specialization v = Return s
  ↔ ∃ k, Untyped.getitem_0 v = Return k ∧ Untyped.hashable k = true
         ∧ named_specialization k s.
Proof.
  unfold Untyped._map_condition_to_specialization. split.
  - destruct (Untyped.getitem_0 v) as [k|e]; [|done]. simpl.
    intros H. apply dict_get_value_spec in H as [Hh Hs]. by exists k.
  - intros (k & -> & Hh & Hs). simpl. unfold Untyped.dict_get.
    rewrite Hh. f_equal.
    destruct Hs as [[-> ->]|[[-> ->]|[[-> ->]|[Hk ->]]]]; try done.
    destruct k as [| | |n| |]; try done.
    rewrite !not_elem_of_cons in Hk. destruct Hk as (H1 & H2 & H3 & _).
    rewrite !lookup_insert_ne, lookup_singleton_ne by congruence. done.
Qed.

Lemma Untyped_map_Raise (v : Untyped.value) (e : exn) :
  Untyped._map_condition_to_specialization v = Raise e
  ↔ Untyped.getitem_0 v = Raise e
    ∨ e = TypeError
      ∧ ∃ k, Untyped.getitem_0 v = Return k ∧ Untyped.hashable k = false.
Proof.
  unfold Untyped._map_condition_to_specialization, Untyped.dict_get.
  destruct (Untyped.getitem_0 v) as [k|e']; simpl.
  - destruct (Untyped.hashable k) eqn:Hh; split.
    + done.
    + intros [|(_ & k' & [= <-] & ?)]; congruence.
    + intros [= <-]. right. split; [done|]. by exists k.
    + by intros [|(-> & _)].
  - split; [intros [= ->]; by left|]. by intros [[= ->]|(_ & k & ? & _)].
Qed.

Lemma getitem_0_Raise (v : Untyped.value) (e : exn) :
  Untyped.getitem_0 v = Raise e
  ↔ e = IndexError
    ∧ (v = Untyped.VStr "" ∨ v = Untyped.VTuple [] ∨ v = Untyped.VList [])
    ∨ e = TypeError
      ∧ (v = Untyped.VNone ∨ (∃ b, v = Untyped.VBool b)
         ∨ ∃ n, v = Untyped.VInt n).
Proof.
  split.
  - destruct v as [|b|n|[|a s]|[|x l]|[|x l]]; simpl; intros [= <-];
      eauto 10.
  - intros [(-> & [->|[->| ->]])|(-> & [->|[[b ->]|[n ->]]])]; done.
Qed.

(** C7, as the code has it. On a condition whose first item exists and can
    be hashed, a pair of a name and a severity in particular, the mapping
    returns and never raises: Chronic Disease Follow-up goes to Cardiology,
    Acute Pain to Orthopedics, Severe Symptoms to Neurology, and a condition
    of any other name, or whose first item is not a name, to General. On
    any other value it raises: [IndexError] on an empty tuple, list or
    string, [TypeError] on [None], a boolean or an integer and on a first
    item that cannot be hashed. *)
Theorem C7_condition_mapping_total :
  (∀ c : condition,
     Untyped._map_condition_to_specialization (Untyped.of_condition c)
     = Return (_map_condition_to_specialization c)
     ∧ _map_condition_to_specialization c = required_specialization c)
  ∧ (∀ sev : Z, _map_condition_to_specialization
                  ("Chronic Disease Follow-up", sev) = "Cardiology")
  ∧ (∀ sev : Z, _map_condition_to_specialization ("Acute Pain", sev)
                = "Orthopedics")
  ∧ (∀ sev : Z, _map_condition_to_specialization ("Severe Symptoms", sev)
                = "Neurology")
  ∧ (∀ c : condition,
       c.1 ∈ ["Chronic Disease Follow-up"; "Acute Pain"; "Severe Symptoms"]
       ∨ _map_condition_to_specialization c = "General")
  ∧ (∀ (v : Untyped.value) (s : string),
       Untyped._map_condition_to_specialization v = Return s
       ↔ ∃ k, Untyped.getitem_0 v = Return k
              ∧ Untyped.hashable k = true ∧ named_specialization k s)
  ∧ (∀ v : Untyped.value,
       (∃ s, Untyped._map_condition_to_specialization v = Return s)
       ↔ ∃ k, Untyped.getitem_0 v = Return k ∧ Untyped.hashable k = true)
  ∧ (∀ v : Untyped.value,
       Untyped._map_condition_to_specialization v = Raise IndexError
       ↔ v = Untyped.VStr "" ∨ v = Untyped.VTuple []
         ∨ v = Untyped.VList [])
  ∧ (∀ v : Untyped.value,
       Untyped._map_condition_to_specialization v = Raise TypeError
       ↔ v = Untyped.VNone ∨ (∃ b, v = Untyped.VBool b)
         ∨ (∃ n, v = Untyped.VInt n)
         ∨ ∃ k, Untyped.getitem_0 v = Return k
                ∧ Untyped.hashable k = false)
  ∧ (∀ (v : Untyped.value) (e : exn),
       Untyped._map_condition_to_specialization v = Raise e →
       e = IndexError ∨ e = TypeError).
Proof.
  split_and!; try done.
  - intros c. split; [|apply _map_condition_to_specialization_spec].
    by destruct c.
  - intros c. rewrite _map_condition_to_specialization_spec.
    unfold required_specialization.
    repeat case_decide; auto; left; set_solver.
  - apply Untyped_map_Return.
  - intros v. split.
    + intros [s (k & Hk & Hh & _)%Untyped_map_Return]. by exists k.
    + intros (k & Hk & Hh).
      unfold Untyped._map_condition_to_specialization, Untyped.dict_get.
      rewrite Hk. simpl. rewrite Hh. eauto.
  - intros v. rewrite Untyped_map_Raise, getitem_0_Raise. split.
    + intros [[[_ H]|[? _]]|[? _]]; done.
    + intros H. left. by left.
  - intros v. rewrite Untyped_map_Raise, getitem_0_Raise. split.
    + intros [[[? _]|[_ H]]|[_ H]]; [done| |]; tauto.
    + intros [H|[H|[H|H]]]; [left; right| left; right| left; right| right];
        tauto.
  - intros v e. rewrite Untyped_map_Raise, getitem_0_Raise.
    intros [[[-> _]|[-> _]]|[-> _]]; auto.
Qed.

Lemma C7_condition_mapping_total_witness :
  Untyped._map_condition_to_specialization
    (Untyped.VTuple [Untyped.VStr "Acute Pain"; Untyped.VInt 4])
  = Return "Orthopedics"
  ∧ ∃ k, Untyped.getitem_0
           (Untyped.VTuple [Untyped.VStr "Acute Pain"; Untyped.VInt 4])
         = Return k
         ∧ Untyped.hashable k = true
         ∧ named_specialization k "Orthopedics".
Proof.
  split; [reflexivity|].
  destruct C7_condition_mapping_total as (_ & _ & _ & _ & _ & H & _).
  apply (H (Untyped.VTuple [Untyped.VStr "Acute Pain"; Untyped.VInt 4])
           "Orthopedics").
  reflexivity.
Defined.

(** C7, as the specification states it, fails: the mapping raises on an
    empty tuple, on [None], on the integer 42 and on a pair whose name is a
    list; and [Patient.__init__] keeps a condition such as 42, which is
    truthy. *)
Lemma C7_counterexample :
  Untyped._map_condition_to_specialization (Untyped.VTuple [])
  = Raise IndexError
  ∧ Untyped._map_condition_to_specialization Untyped.VNone = Raise TypeError
  ∧ Untyped._map_condition_to_specialization (Untyped.VInt 42)
    = Raise TypeError
  ∧ Untyped._map_condition_to_specialization
      (Untyped.VTuple [Untyped.VList [Untyped.VStr "Acute Pain"];
                       Untyped.VInt 4])
    = Raise TypeError
  ∧ (Untyped.medical_condition_or (Untyped.VInt 42) (frozen_world 0 0)).1
    = Untyped.VInt 42
  ∧ ¬ ∃ s, Untyped._map_condition_to_specialization (Untyped.VInt 42)
           = Return s.
Proof. split_and!; try reflexivity. by intros [s Hs]. Qed.

(** [min] returns the first of the items with the least key *)
Lemma foldl_min_spec {A : Type} (key : A → Z) (xs : list A) :
  ∀ (pre : list A) (best : A) (i : nat),
    pre !! i = Some best →
    (∀ j y, pre !! j = Some y →
            (key best ≤ key y)%Z ∧ (key y = key best → i ≤ j)) →
    ∃ i',
      (pre ++ xs) !! i'
      = Some (foldl (λ best y, if (key y <? key best)%Z then y else best)
                    best xs) ∧
      ∀ j y, (pre ++ xs) !! j = Some y →
        (key (foldl (λ best y, if (key y <? key best)%Z then y else best)
                    best xs) ≤ key y)%Z ∧
        (key y = key (foldl (λ best y,
                               if (key y <? key best)%Z then y else best)
                            best xs) → i' ≤ j).
Proof.
  induction xs as [|x xs IH]; intros pre best i Hbest Hmin.
  - exists i. rewrite app_nil_r. done.
  - rewrite (cons_middle x pre xs), app_assoc. simpl.
    pose proof (lookup_lt_Some _ _ _ Hbest) as Hi.
    destruct (Z.ltb_spec (key x) (key best)) as [Hlt|Hge].
    + apply (IH (pre ++ [x]) x (length pre)).
      * by rewrite lookup_app_r, Nat.sub_diag by lia.
      * intros j y Hy. apply lookup_app_Some in Hy as [Hy|[Hj Hy]].
        -- destruct (Hmin j y Hy). lia.
        -- apply list_lookup_singleton_Some in Hy as [_ <-]. lia.
    + apply (IH (pre ++ [x]) best i).
      * by rewrite lookup_app_l by lia.
      * intros j y Hy. apply lookup_app_Some in Hy as [Hy|[Hj Hy]].
        -- by apply Hmin.
        -- apply list_lookup_singleton_Some in Hy as [_ <-]. lia.
Qed.

Lemma py_min_spec {A : Type} (key : A → Z) (seq : list A) :
  seq ≠ [] →
  ∃ i m, py_min key seq = Return m ∧ seq !! i = Some m ∧
         ∀ j y, seq !! j = Some y →
                (key m ≤ key y)%Z ∧ (key y = key m → i ≤ j).
Proof.
  destruct seq as [|x xs]; [done|]. intros _.
  destruct (foldl_min_spec key xs [x] x 0) as (i & Hi & Hmin); [done| |].
  { intros [|j] y Hy; [|done]. injection Hy as <-. lia. }
  exists i. eexists. split; [done|]. by split.
Qed.

(** ** The candidates of an assignment *)

Lemma _is_doctor_suitable_spec (d : Doctor) (p : Patient) :
  _is_doctor_suitable d p ↔ suitable d p.
Proof.
  unfold _is_doctor_suitable, suitable.
  rewrite orb_True, !bool_decide_spec.
  by rewrite _map_condition_to_specialization_spec.
Qed.

Lemma elem_of_doctor_values (self : QueueManagementSystem) ref d :
  (ref, d) ∈ doctor_values self ↔ doctor_at self ref = Some d.
Proof.
  unfold doctor_values, doctor_at. rewrite elem_of_lookup_imap. split.
  - intros (i & kv & Heq & Hkv). injection Heq as -> ->. by rewrite Hkv.
  - intros Hd. destruct (doctors self !! ref) as [kv|] eqn:Hkv; [|done].
    injection Hd as <-. by exists ref, kv.
Qed.

Lemma elem_of_candidates (self : QueueManagementSystem) (p : Patient) ref d :
  (ref, d) ∈ candidates self p ↔ doctor_at self ref = Some d ∧ suitable d p.
Proof.
  unfold candidates. case_decide as Hnone.
  - rewrite list_elem_of_filter, elem_of_doctor_values. simpl. split.
    + intros [Hgen Hd]. exfalso.
      apply (filter_nil_not_elem_of _ _ (ref, d) Hnone).
      * apply _is_doctor_suitable_spec. by left.
      * by apply elem_of_doctor_values.
    + intros [Hd Hs]. exfalso.
      apply (filter_nil_not_elem_of _ _ (ref, d) Hnone).
      * by apply _is_doctor_suitable_spec.
      * by apply elem_of_doctor_values.
  - rewrite list_elem_of_filter, elem_of_doctor_values. simpl.
    rewrite _is_doctor_suitable_spec. tauto.
Qed.

Lemma imap_refs_sorted {V W : Type} (f : V → W) (l : list V) : ∀ k,
  StronglySorted (λ a b : nat * W, a.1 < b.1)
                 (imap (λ i v, (k + i, f v)) l).
Proof.
  induction l as [|v l IH]; intros k; [constructor|].
  rewrite imap_cons. constructor.
  - rewrite (imap_ext _ (λ i v, (S k + i, f v))); [apply IH|].
    intros i x _. simpl. f_equal. lia.
  - apply Forall_forall. intros [r w] Hin.
    apply elem_of_lookup_imap in Hin as (i & x & [= -> ->] & _).
    simpl. lia.
Qed.

Lemma filter_StronglySorted {V : Type} (R : V → V → Prop) (P : V → Prop)
    `{!∀ x, Decision (P x)} (l : list V) :
  StronglySorted R l → StronglySorted R (filter P l).
Proof.
  induction 1 as [|x l Hl IH Hx]; [constructor|].
  rewrite filter_cons. case_decide; [|done].
  constructor; [done|]. apply Forall_forall. intros y Hy.
  apply list_elem_of_filter in Hy as [_ Hy].
  by eapply Forall_forall in Hx.
Qed.

Lemma StronglySorted_lookup_lt {V : Type} (R : V → V → Prop) (l : list V) :
  StronglySorted R l →
  ∀ i j a b, l !! i = Some a → l !! j = Some b → i < j → R a b.
Proof.
  induction 1 as [|x l Hl IH Hx]; intros i j a b Ha Hb Hij; [done|].
  destruct j as [|j]; [lia|]. simpl in Hb.
  destruct i as [|i]; simpl in Ha.
  - injection Ha as <-. eapply Forall_forall in Hx; [done|].
    by eapply list_elem_of_lookup_2.
  - eapply IH; [done..|lia].
Qed.

Lemma candidates_sorted (self : QueueManagementSystem) (p : Patient) :
  StronglySorted (λ a b : DoctorRef * Doctor, a.1 < b.1) (candidates self p).
Proof.
  assert (StronglySorted (λ a b : DoctorRef * Doctor, a.1 < b.1)
                         (doctor_values self)) as Hs.
  { unfold doctor_values. apply (imap_refs_sorted snd (doctors self) 0). }
  unfold candidates. case_decide; by apply filter_StronglySorted.
Qed.

(** the doctor [assign_patient] selects *)
Lemma selection_spec (self : QueueManagementSystem) (p : Patient) ref d :
  py_min (λ c, estimate_wait_time c.2) (candidates self p) = Return (ref, d) →
  doctor_at self ref = Some d ∧ suitable d p ∧
  ∀ ref' d', doctor_at self ref' = Some d' → suitable d' p →
    (estimate_wait_time d ≤ estimate_wait_time d')%Z ∧
    (estimate_wait_time d' = estimate_wait_time d → ref ≤ ref').
Proof.
  intros Hmin.
  destruct (decide (candidates self p = [])) as [Hnil|Hne].
  { by rewrite Hnil in Hmin. }
  destruct (py_min_spec (λ c, estimate_wait_time c.2) _ Hne)
    as (i & m & Hrun & Hi & Hleast).
  rewrite Hmin in Hrun. injection Hrun as <-.
  pose proof (list_elem_of_lookup_2 _ _ _ Hi) as Hin.
  apply elem_of_candidates in Hin as [Hd Hs]. split_and!; [done..|].
  intros ref' d' Hd' Hs'.
  assert ((ref', d') ∈ candidates self p) as Hin'
    by (by apply elem_of_candidates).
  apply list_elem_of_lookup_1 in Hin' as [j Hj].
  destruct (Hleast j _ Hj) as [Hle Htie]. simpl in *. split; [done|].
  intros Heq. specialize (Htie Heq).
  destruct (decide (i = j)) as [->|Hij];
    [rewrite Hi in Hj; injection Hj as -> _; lia|].
  pose proof (StronglySorted_lookup_lt _ _ (candidates_sorted self p)
                i j _ _ Hi Hj) as Hlt.
  simpl in Hlt. lia.
Qed.

(** ** The assignment *)

Lemma assign_patient_inv (self : QueueManagementSystem) (patient : Patient)
    (w : World) ref self' w' :
  assign_patient self patient w = (Return (ref, self'), w') →
  ∃ d q,
    py_min (λ c, estimate_wait_time c.2) (candidates self patient)
    = Return (ref, d) ∧
    add_patient d patient = Return (set_queue d q) ∧
    q ≡ₚ queue d ++ [patient] ∧
    self' = store_doctor self ref (set_queue d q) ∧
    w' = (send_notification patient
            (assigned_message (set_queue d q)
               (estimate_wait_time (set_queue d q))) w).2.
Proof.
  unfold assign_patient.
  destruct (py_min _ (candidates self patient)) as [[r d]|e]; [|done].
  destruct (add_patient_perm d patient) as (q & Hadd & Hperm).
  rewrite Hadd.
  destruct (send_notification patient _ w) as [u w0] eqn:Hsend.
  intros [= <- <- <-]. exists d, q. by rewrite Hsend.
Qed.

Lemma assign_patient_no_candidate (self : QueueManagementSystem)
    (patient : Patient) (w : World) :
  candidates self patient = [] →
  assign_patient self patient w = (Raise ValueError, w).
Proof. intros Hnil. unfold assign_patient. by rewrite Hnil. Qed.

Lemma doctor_at_store_eq (self : QueueManagementSystem) ref d d' :
  doctor_at self ref = Some d →
  doctor_at (store_doctor self ref d') ref = Some d'.
Proof.
  unfold doctor_at, store_doctor. simpl. rewrite list_lookup_alter_eq.
  by destruct (doctors self !! ref).
Qed.

Lemma doctors_store_ne (self : QueueManagementSystem) ref ref' d' :
  ref ≠ ref' →
  doctors (store_doctor self ref d') !! ref' = doctors self !! ref'.
Proof. intros Hne. simpl. by apply list_lookup_alter_ne. Qed.

Lemma doctors_store_keys (self : QueueManagementSystem) ref d' :
  (doctors (store_doctor self ref d')).*1 = (doctors self).*1.
Proof.
  simpl. apply list_eq. intros i. rewrite !list_lookup_fmap.
  destruct (decide (ref = i)) as [->|Hne].
  - rewrite list_lookup_alter_eq. by destruct (doctors self !! i).
  - by rewrite list_lookup_alter_ne.
Qed.

(** C4, as the code has it. When the registry holds no General doctor and
    no doctor of the specialization the patient requires, [assign_patient]
    raises the [ValueError] of [min] on an empty sequence; nothing catches
    it, no queue changes and nothing is notified. *)
Theorem C4_no_candidate_raises_ValueError (self : QueueManagementSystem)
    (patient : Patient) (w : World) :
  (∀ ref d, doctor_at self ref = Some d →
            specialization d ≠ "General" ∧
            specialization d
            ≠ required_specialization (medical_condition patient)) →
  assign_patient self patient w = (Raise ValueError, w).
Proof.
  intros Hnone. apply assign_patient_no_candidate.
  apply elem_of_nil_inv. intros [ref d] Hin.
  apply elem_of_candidates in Hin as [Hd Hs].
  destruct (Hnone ref d Hd) as [Hgen Hreq]. by destruct Hs.
Qed.

Lemma C4_no_candidate_raises_ValueError_witness :
  (∀ ref d, doctor_at pediatrics_only ref = Some d →
            specialization d ≠ "General" ∧
            specialization d
            ≠ required_specialization
                (medical_condition (acute_patient 0 0 3)))
  ∧ assign_patient pediatrics_only (acute_patient 0 0 3) (frozen_world 0 0)
    = (Raise ValueError, frozen_world 0 0).
Proof.
  assert (∀ ref d, doctor_at pediatrics_only ref = Some d →
            specialization d ≠ "General" ∧
            specialization d
            ≠ required_specialization
                (medical_condition (acute_patient 0 0 3))) as Hnone.
  { intros [|ref] d Hd; [|done]. injection Hd as <-. by vm_compute. }
  split; [exact Hnone|].
  exact (C4_no_candidate_raises_ValueError pediatrics_only
           (acute_patient 0 0 3) (frozen_world 0 0) Hnone).
Defined.

(** C4, as the specification states it, fails: with a Pediatrics doctor only
    and a patient in acute pain, the outcome of [assign_patient] is the
    [ValueError] of [min], not a [NoAvailableDoctor] condition. *)
Lemma C4_counterexample :
  (assign_patient pediatrics_only (acute_patient 0 0 3) (frozen_world 0 0)).1
  = Raise ValueError
  ∧ (assign_patient pediatrics_only (acute_patient 0 0 3)
       (frozen_world 0 0)).1
    ≠ Raise NoAvailableDoctor.
Proof. split; [by vm_compute|]. by vm_compute. Qed.

(** C6, as the code has it. The candidates are the doctors whose
    specialization is General or the one the patient requires (the fallback
    to the General doctors never adds one). [assign_patient] selects a
    candidate of least [estimate_wait_time]; among the candidates of least
    wait it selects the first in the order in which the doctors were
    registered. *)
Theorem C6_selection_first_minimum (self : QueueManagementSystem)
    (patient : Patient) (w : World) ref self' w' :
  assign_patient self patient w = (Return (ref, self'), w') →
  (∀ ref' d', (ref', d') ∈ candidates self patient
              ↔ doctor_at self ref' = Some d' ∧ suitable d' patient)
  ∧ ∃ d, doctor_at self ref = Some d ∧ suitable d patient ∧
      ∀ ref' d', doctor_at self ref' = Some d' → suitable d' patient →
        (estimate_wait_time d ≤ estimate_wait_time d')%Z ∧
        (estimate_wait_time d' = estimate_wait_time d → ref ≤ ref').
Proof.
  intros Hrun. split; [intros; apply elem_of_candidates|].
  apply assign_patient_inv in Hrun as (d & q & Hmin & _).
  exists d. by apply selection_spec.
Qed.

Lemma C6_selection_first_minimum_witness :
  assign_patient two_generals (acute_patient 0 0 3) (frozen_world 0 0)
  = (Return (0, two_generals_after), world_after)
  ∧ ∃ d, doctor_at two_generals 0 = Some d ∧
      suitable d (acute_patient 0 0 3) ∧
      ∀ ref' d', doctor_at two_generals ref' = Some d' →
        suitable d' (acute_patient 0 0 3) →
        (estimate_wait_time d ≤ estimate_wait_time d')%Z ∧
        (estimate_wait_time d' = estimate_wait_time d → 0 ≤ ref').
Proof.
  split; [by vm_compute|].
  apply (C6_selection_first_minimum two_generals (acute_patient 0 0 3)
           (frozen_world 0 0) 0 two_generals_after world_after).
  by vm_compute.
Defined.

(** C6, as the specification states it, fails: "DOC-2" and "DOC-1" are both
    General, both have an estimated wait of 0, and "DOC-2" was registered
    first; [assign_patient] returns "DOC-2", whose id is not the least. *)
Lemma C6_counterexample :
  (assign_patient two_generals (acute_patient 0 0 3) (frozen_world 0 0)).1
  = Return (0, two_generals_after)
  ∧ doctor_id <$> doctor_at two_generals 0 = Some "DOC-2"
  ∧ doctor_id <$> doctor_at two_generals 1 = Some "DOC-1"
  ∧ (1, {| doctor_id := "DOC-1"; specialization := "General"; queue := [];
           availability_blocks :=
             [(32400000000, 43200000000); (54000000000, 64800000000)]%Z;
           avg_consultation_time := 10; daily_capacity := 30 |})
    ∈ candidates two_generals (acute_patient 0 0 3)
  ∧ estimate_wait_time <$> doctor_at two_generals 0 = Some 0%Z
  ∧ estimate_wait_time <$> doctor_at two_generals 1 = Some 0%Z
  ∧ String.ltb "DOC-1" "DOC-2" = true.
Proof.
  split_and!; try by vm_compute.
  apply elem_of_candidates. split; [by vm_compute|]. by left.
Qed.



(** C10. A successful [assign_patient] changes the queue of the selected
    doctor only, which gains exactly the assigned patient and grows by one;
    the keys of the registry, every other entry, and the id, specialization,
    availability, average consultation time and capacity of the selected
    doctor are as before. *)
Theorem C10_assign_frame (self : QueueManagementSystem) (patient : Patient)
    (w : World) ref self' w' :
  assign_patient self patient w = (Return (ref, self'), w') →
  (doctors self').*1 = (doctors self).*1
  ∧ (∀ ref', ref' ≠ ref → doctors self' !! ref' = doctors self !! ref')
  ∧ ∃ d d',
      doctor_at self ref = Some d ∧ doctor_at self' ref = Some d' ∧
      queue d' ≡ₚ queue d ++ [patient] ∧
      length (queue d') = S (length (queue d)) ∧
      doctor_id d' = doctor_id d ∧
      specialization d' = specialization d ∧
      availability_blocks d' = availability_blocks d ∧
      avg_consultation_time d' = avg_consultation_time d ∧
      daily_capacity d' = daily_capacity d.
Proof.
  intros Hrun.
  apply assign_patient_inv in Hrun
    as (d & q & Hmin & Hadd & Hperm & -> & ->).
  pose proof (selection_spec _ _ _ _ Hmin) as (Hd & _).
  split_and!.
  - apply doctors_store_keys.
  - intros ref' Hne. by apply doctors_store_ne.
  - exists d, (set_queue d q). split_and!; try done.
    + by eapply doctor_at_store_eq.
    + simpl. apply Permutation_length in Hperm.
      rewrite length_app in Hperm. simpl in Hperm. lia.
Qed.

Lemma C10_assign_frame_witness :
  assign_patient two_generals (acute_patient 0 0 3) (frozen_world 0 0)
  = (Return (0, two_generals_after), world_after)
  ∧ (doctors two_generals_after).*1 = (doctors two_generals).*1
  ∧ (∀ ref', ref' ≠ 0 →
       doctors two_generals_after !! ref' = doctors two_generals !! ref').
Proof.
  split; [by vm_compute|].
  destruct (C10_assign_frame two_generals (acute_patient 0 0 3)
              (frozen_world 0 0) 0 two_generals_after world_after)
    as (Hkeys & Hothers & _); [by vm_compute|].
  by split.
Defined.

(** the constructor can leave the registry without a General doctor: here
    the random generator serves "Pediatrics" three times *)
Example setup_without_General :
  (λ kv : string * Doctor, specialization kv.2)
  <$> doctors (QueueManagementSystem_init 3 (frozen_world 0 1)).1
  = ["Pediatrics"; "Pediatrics"; "Pediatrics"].
Proof. by vm_compute. Qed.

(** no outcome of [assign_patient] is the [NoAvailableDoctor] condition *)
Lemma assign_patient_never_NoAvailableDoctor (self : QueueManagementSystem)
    (patient : Patient) (w : World) :
  (assign_patient self patient w).1 ≠ Raise NoAvailableDoctor.
Proof.
  unfold assign_patient.
  destruct (candidates self patient) as [|c cs] eqn:Hc; [done|]. simpl.
  match goal with
  | |- context [foldl ?f c cs] => destruct (foldl f c cs) as [r d]
  end.
  destruct (add_patient_perm d patient) as (q & -> & _). done.
Qed.

(** * Further properties of the code

    ** The random generator and the constructor of a patient *)

Lemma random_choice_elem {A : Type} (x : A) (xs : list A) (w : World) :
  (random_choice x xs w).1 ∈ x :: xs.
Proof.
  unfold random_choice, random_raw, mbind, Sys_bind, mret, Sys_ret.
  cbn [fst]. apply list_elem_of_In, nth_In.
  apply Nat.mod_upper_bound. simpl. lia.
Qed.

Lemma random_choice_world {A : Type} (x : A) (xs : list A) (w : World) :
  (random_choice x xs w).2 = (random_raw w).2.
Proof. done. Qed.

Lemma random_randint_range (a b : Z) (w : World) :
  (a ≤ b)%Z →
  (a ≤ (random_randint a b w).1 ≤ b)%Z.
Proof.
  intros Hab.
  unfold random_randint, random_raw, mbind, Sys_bind, mret, Sys_ret. simpl.
  pose proof (Z.mod_pos_bound (Z.of_nat (entropy w (draws w))) (b - a + 1)).
  lia.
Qed.

Lemma _generate_medical_condition_elem (w : World) :
  (_generate_medical_condition w).1
  ∈ [("Minor Checkup", 1%Z); ("Routine Prescription", 2%Z);
     ("Chronic Disease Follow-up", 3%Z); ("Acute Pain", 4%Z);
     ("Severe Symptoms", 5%Z)].
Proof. apply random_choice_elem. Qed.

Lemma _calculate_urgency_range (w : World) :
  (1 ≤ (_calculate_urgency w).1 ≤ 5)%Z.
Proof.
  pose proof (_generate_medical_condition_elem w) as Hin.
  unfold _calculate_urgency, mbind, Sys_bind, mret, Sys_ret.
  destruct (_generate_medical_condition w) as [c w']. simpl in *.
  set_unfold. destruct Hin as [->|[->|[->|[->|[->|[]]]]]]; simpl; lia.
Qed.

(** the random generator leaves the clock, the uuid source and the output
    alone, and takes one number *)
Lemma random_choice_frame {A : Type} (x : A) (xs : list A) (w : World) :
  let w' := (random_choice x xs w).2 in
  clock w' = clock w ∧ ticks w' = ticks w ∧ outbox w' = outbox w
  ∧ entropy w' = entropy w ∧ draws w' = S (draws w).
Proof. done. Qed.

Lemma random_randint_frame (a b : Z) (w : World) :
  let w' := (random_randint a b w).2 in
  clock w' = clock w ∧ ticks w' = ticks w ∧ outbox w' = outbox w
  ∧ entropy w' = entropy w ∧ draws w' = S (draws w).
Proof. done. Qed.

Lemma _generate_medical_condition_frame (w : World) :
  let w' := (_generate_medical_condition w).2 in
  clock w' = clock w ∧ ticks w' = ticks w ∧ outbox w' = outbox w
  ∧ entropy w' = entropy w ∧ draws w' = S (draws w).
Proof. done. Qed.

Lemma _calculate_urgency_frame (w : World) :
  let w' := (_calculate_urgency w).2 in
  clock w' = clock w ∧ ticks w' = ticks w ∧ outbox w' = outbox w
  ∧ entropy w' = entropy w ∧ draws w' = S (draws w).
Proof. done. Qed.

(** stepping through the binds of a constructor, keeping what is known of
    the value each step returns and of the world it leaves *)
Ltac step_init :=
  match goal with
  | |- context [_calculate_urgency ?w] =>
      pose proof (_calculate_urgency_range w);
      pose proof (_calculate_urgency_frame w);
      destruct (_calculate_urgency w)
  | |- context [_generate_medical_condition ?w] =>
      pose proof (_generate_medical_condition_elem w);
      pose proof (_generate_medical_condition_frame w);
      destruct (_generate_medical_condition w)
  | |- context [random_choice ?x ?xs ?w] =>
      pose proof (random_choice_elem x xs w);
      pose proof (random_choice_frame x xs w);
      destruct (random_choice x xs w)
  | |- context [random_randint ?a ?b ?w] =>
      pose proof (random_randint_range a b w);
      pose proof (random_randint_frame a b w);
      destruct (random_randint a b w)
  | |- context [let '(_, _) := ?m ?w in _] => destruct (m w)
  end.

Lemma source_adjustment_range (src : string) :
  (-1 ≤ source_adjustment src ≤ 1)%Z.
Proof. unfold source_adjustment. repeat case_decide; lia. Qed.

Lemma delay_minutes_nonneg (p : Patient) : (0 ≤ delay_minutes p)%Z.
Proof. unfold delay_minutes, minutes_late. lia. Qed.

Lemma Patient_init_urgency_1_5 name_arg contact_arg sched_arg source_arg
    cond_arg (w : World) :
  (1 ≤ urgency (Patient_init name_arg contact_arg sched_arg source_arg
                  cond_arg w).1 ≤ 5)%Z.
Proof.
  unfold Patient_init, mbind, Sys_bind, mret, Sys_ret.
  repeat step_init. simpl. done.
Qed.

(** X1. The urgency of every patient [Patient.__init__] creates is an
    integer from 1 to 5, whatever the arguments, the clock and the random
    generator. *)
Theorem Patient_init_urgency_range name_arg contact_arg sched_arg source_arg
    cond_arg (w : World) :
  (1 ≤ urgency (Patient_init name_arg contact_arg sched_arg source_arg
                  cond_arg w).1 ≤ 5)%Z.
Proof. apply Patient_init_urgency_1_5. Qed.

(** X2. The priority of every patient [Patient.__init__] creates is at most 51,
    and at most ten times its urgency plus one, as is the priority
    [calculate_priority] computes for any record. For a record whose arrival
    is less than 2^34 seconds after its scheduled time that priority lies
    within one of [urgency * 10 - delay_minutes]; below 2^53 seconds it is
    at most two under it and at most one over it. *)
Theorem Patient_init_priority_bounds name_arg contact_arg sched_arg
    source_arg cond_arg (w : World) :
  let p := (Patient_init name_arg contact_arg sched_arg source_arg cond_arg
              w).1 in
  (priority p ≤ 51)%Z ∧ (priority p ≤ urgency p * 10 + 1)%Z
  ∧ ∀ q : Patient,
      (calculate_priority q ≤ urgency q * 10 + 1)%Z
      ∧ ((arrival_time q - scheduled_time q < 17179869184000000)%Z →
         (urgency q * 10 - delay_minutes q - 1 ≤ calculate_priority q
          ≤ urgency q * 10 - delay_minutes q + 1)%Z)
      ∧ ((arrival_time q - scheduled_time q < 9007199254740992000000)%Z →
         (urgency q * 10 - delay_minutes q - 2 ≤ calculate_priority q
          ≤ urgency q * 10 - delay_minutes q + 1)%Z).
Proof.
  intros p.
  assert (∀ q : Patient, (calculate_priority q ≤ urgency q * 10 + 1)%Z)
    as Hq.
  { intros q. rewrite calculate_priority_delay.
    pose proof (source_adjustment_range (source q)). lia. }
  pose proof (Patient_init_urgency_1_5 name_arg contact_arg sched_arg
                source_arg cond_arg w) as Hu.
  pose proof (Patient_init_priority name_arg contact_arg sched_arg
                source_arg cond_arg w) as Hp.
  fold p in Hu. simpl in Hp. fold p in Hp.
  pose proof (Hq p).
  split_and!; [lia|lia|]. intros q.
  pose proof (source_adjustment_range (source q)).
  split_and!; [done|..]; intros Hb.
  - rewrite calculate_priority_formula by done. lia.
  - pose proof (calculate_priority_near q Hb). lia.
Qed.

Lemma Patient_init_priority_bounds_witness :
  let q := acute_patient 0 600000000 3 in
  (arrival_time q - scheduled_time q < 17179869184000000)%Z
  ∧ (urgency q * 10 - delay_minutes q - 1 ≤ calculate_priority q
     ≤ urgency q * 10 - delay_minutes q + 1)%Z.
Proof.
  split; [by vm_compute|].
  destruct (Patient_init_priority_bounds None None None None None
              (frozen_world 0 0)) as (_ & _ & H).
  destruct (H (acute_patient 0 600000000 3)) as (_ & Hq & _).
  apply Hq. by vm_compute.
Defined.

(** X3. Every patient [Patient.__init__] creates has a non-empty name and
    source, the status "Scheduled" and no wait time; its source is the one
    given or one of the three channels, its condition the one given or one
    of the five conditions with their severity. When a scheduled time is
    given, the arrival time is the reading of the clock at creation; when
    none is, the scheduled time is that reading and the arrival time the
    next one. *)
Theorem Patient_init_fields name_arg contact_arg sched_arg source_arg
    cond_arg (w : World) :
  let p := (Patient_init name_arg contact_arg sched_arg source_arg cond_arg
              w).1 in
  name p ≠ "" ∧ source p ≠ ""
  ∧ status p = "Scheduled" ∧ wait_time p = None
  ∧ contact_number p = contact_arg
  ∧ patient_id p = uuid_source w (uuids w)
  ∧ (source_arg = Some (source p)
     ∨ source p ∈ ["App"; "Walk-in"; "WhatsApp"])
  ∧ (cond_arg = Some (medical_condition p)
     ∨ medical_condition p
       ∈ [("Minor Checkup", 1%Z); ("Routine Prescription", 2%Z);
          ("Chronic Disease Follow-up", 3%Z); ("Acute Pain", 4%Z);
          ("Severe Symptoms", 5%Z)])
  ∧ (sched_arg = Some (scheduled_time p)
     ∧ arrival_time p = clock w (ticks w)
     ∨ sched_arg = None
       ∧ scheduled_time p = clock w (ticks w)
       ∧ arrival_time p = clock w (S (ticks w))).
Proof.
  unfold Patient_init, str_or, val_or, uuid4_str, datetime_now, mbind,
    Sys_bind, mret, Sys_ret.
  destruct name_arg as [nm|], source_arg as [src|], cond_arg as [c|],
    sched_arg as [t|];
    cbv beta iota; repeat first [case_decide | step_init]; simpl in *;
    split_and!; auto; try done;
    match goal with
    | H : ?s ∈ _ |- ?s ≠ "" =>
        rewrite !elem_of_cons, elem_of_nil in H; intros ->;
        intuition discriminate
    | |- _ ∧ _ ∨ _ => destruct_and?; (left + right); split_and?; congruence
    end.
Qed.

Lemma minutes_late_under_a_minute (scheduled arrival : datetime) :
  (arrival - scheduled < 60000000)%Z → minutes_late scheduled arrival = 0%Z.
Proof.
  intros Hlt. unfold minutes_late. apply Z.max_l.
  assert ((arrival - scheduled) `div` 60000000 < 1)%Z; [|lia].
  apply Z.div_lt_upper_bound; lia.
Qed.

Lemma minutes_late_next_minute (scheduled arrival : datetime) :
  (scheduled ≤ arrival)%Z →
  minutes_late scheduled (arrival + 60000000)%Z
  = (minutes_late scheduled arrival + 1)%Z.
Proof.
  intros Hle. unfold minutes_late.
  replace (arrival + 60000000 - scheduled)%Z
    with ((arrival - scheduled) + 1 * 60000000)%Z by lia.
  rewrite Z.div_add by lia.
  assert (0 ≤ (arrival - scheduled) `div` 60000000)%Z
    by (apply Z.div_pos; lia).
  lia.
Qed.

(** X4. Lateness is counted in whole minutes. A patient who arrives less than
    one minute after the scheduled time (or before it) loses nothing: the
    priority is [urgency * 10] plus the adjustment of the source. Of two
    patients equal in urgency, source and scheduled time, neither early and
    both arriving less than 2^34 seconds after the scheduled time, the one
    arriving exactly one minute after the other has a priority lower by
    exactly one. *)
Theorem calculate_priority_minute_steps (p1 p2 : Patient) :
  urgency p1 = urgency p2 → source p1 = source p2 →
  scheduled_time p1 = scheduled_time p2 →
  (scheduled_time p1 ≤ arrival_time p1)%Z →
  arrival_time p2 = (arrival_time p1 + 60000000)%Z →
  (arrival_time p2 - scheduled_time p2 < 17179869184000000)%Z →
  calculate_priority p2 = (calculate_priority p1 - 1)%Z
  ∧ ((arrival_time p1 - scheduled_time p1 < 60000000)%Z →
     calculate_priority p1
     = (urgency p1 * 10 + source_adjustment (source p1))%Z).
Proof.
  intros Hu Hs Ht Hle Ha Hb.
  rewrite !calculate_priority_formula by (rewrite <-?Ht, ?Ha in *; lia).
  unfold delay_minutes. rewrite <-Hu, <-Hs, <-Ht, Ha. split.
  - rewrite minutes_late_next_minute by done. lia.
  - intros Hlt. rewrite minutes_late_under_a_minute by done. lia.
Qed.

Lemma calculate_priority_minute_steps_witness :
  calculate_priority (acute_patient 0 60000000 3)
  = (calculate_priority (acute_patient 0 0 3) - 1)%Z.
Proof.
  apply (calculate_priority_minute_steps (acute_patient 0 0 3)
           (acute_patient 0 60000000 3)); by vm_compute.
Defined.

(** ** heappop on any list, and the calls on a queue *)

Section heappop_perm.
Context {A : Type} `{!PyLt A}.

Lemma smaller_child_total (heap : list A) pos :
  2 * pos + 1 < length heap →
  ∃ c y, smaller_child heap (length heap) (2 * pos + 1) = Return c ∧
         heap !! c = Some y ∧ pos < c.
Proof.
  intros Hlen.
  destruct (lookup_lt_is_Some_2 heap (2 * pos + 1) Hlen) as [l Hl].
  unfold smaller_child. case_decide as Hr.
  - destruct (lookup_lt_is_Some_2 heap (2 * pos + 1 + 1) Hr) as [r Hrv].
    unfold getitem. rewrite Hl, Hrv. cbn [mbind outcome_bind].
    destruct (negb (py_lt l r)).
    + exists (2 * pos + 1 + 1), r. split_and!; [done..|lia].
    + exists (2 * pos + 1), l. split_and!; [done..|lia].
  - exists (2 * pos + 1), l. split_and!; [done..|lia].
Qed.

Lemma siftup_loop_perm n : ∀ (heap : list A) pos newitem,
  length heap - pos ≤ n → pos < length heap →
  ∃ heap' pos',
    siftup_loop heap (length heap) pos = Return (heap', pos') ∧
    pos ≤ pos' ∧ pos' < length heap' ∧
    <[pos' := newitem]> heap' ≡ₚ <[pos := newitem]> heap.
Proof.
  induction n as [|n IH]; intros heap pos newitem Hn Hlen; [lia|].
  rewrite siftup_loop_step.
  case_decide as Hkid; [|exists heap, pos; split_and!; done].
  destruct (smaller_child_total heap pos Hkid) as (c & y & -> & Hy & Hc).
  pose proof (lookup_lt_Some _ _ _ Hy) as Hclen.
  cbn [mbind outcome_bind]. unfold getitem at 1. rewrite Hy.
  cbn [mbind outcome_bind]. unfold setitem at 1.
  rewrite decide_True by done. cbn [mbind outcome_bind].
  destruct (IH (<[pos := y]> heap) c newitem)
    as (heap' & pos' & Hrun & Hle & Hlen' & Hperm).
  - rewrite length_insert. lia.
  - by rewrite length_insert.
  - rewrite length_insert in Hrun. exists heap', pos'.
    split_and!; [done|lia|done|]. rewrite Hperm.
    rewrite <-(list_insert_insert_eq heap pos y newitem).
    eapply swap_Permutation.
    + by apply list_lookup_insert_eq.
    + by rewrite list_lookup_insert_ne by lia.
Qed.

Lemma _siftup_perm (heap : list A) pos :
  pos < length heap →
  ∃ heap', _siftup heap pos = Return heap' ∧ heap' ≡ₚ heap.
Proof.
  intros Hlen.
  destruct (lookup_lt_is_Some_2 heap pos Hlen) as [newitem Hnew].
  unfold _siftup, getitem at 1. rewrite Hnew. cbn [mbind outcome_bind].
  destruct (siftup_loop_perm (length heap) heap pos newitem)
    as (heap1 & pos1 & -> & Hle & Hlen1 & Hperm); [lia|done|].
  cbn [mbind outcome_bind]. unfold setitem at 1.
  rewrite decide_True by done. cbn [mbind outcome_bind].
  rewrite (list_insert_id heap pos newitem) in Hperm by done.
  unfold _siftdown, getitem at 1.
  rewrite list_lookup_insert_eq by done. cbn [mbind outcome_bind].
  destruct (siftdown_loop_perm pos1 (<[pos1 := newitem]> heap1) newitem pos)
    as (heap2 & pos2 & -> & Hlen2 & Hperm2).
  { by rewrite length_insert. }
  cbn [mbind outcome_bind]. unfold setitem. rewrite decide_True by done.
  eexists. split; [done|].
  by rewrite Hperm2, list_insert_insert_eq, Hperm.
Qed.

Lemma heappop_perm (heap : list A) :
  heap ≠ [] →
  ∃ r heap', heappop heap = Return (r, heap') ∧ heap !! 0 = Some r ∧
             r :: heap' ≡ₚ heap.
Proof.
  intros Hne.
  destruct (proj2 (last_is_Some heap) Hne) as [lastelt Hlast].
  pose proof Hlast as Hsnoc. apply last_Some in Hsnoc as [front ->].
  unfold heappop, list_pop. rewrite Hlast. cbn [mbind outcome_bind].
  rewrite length_app. simpl.
  replace (length front + 1 - 1) with (length front) by lia.
  rewrite take_app_length. case_decide as Hfront.
  - destruct front as [|r rest]; [done|].
    unfold getitem at 1, setitem at 1. simpl.
    destruct (_siftup_perm (lastelt :: rest) 0) as (heap' & -> & Hperm);
      [simpl; lia|].
    exists r, heap'. split_and!; [done..|].
    rewrite Hperm. simpl. by rewrite (Permutation_app_comm rest).
  - subst front. simpl. by exists lastelt, [].
Qed.
End heappop_perm.

Lemma next_patient_empty (d : Doctor) :
  queue d = [] → next_patient d = Return (None, d).
Proof.
  intros Hq. unfold next_patient.
  by rewrite decide_False by (by rewrite Hq; intros ?).
Qed.

Lemma next_patient_nonempty (d : Doctor) :
  queue d ≠ [] →
  ∃ r q, next_patient d = Return (Some r, set_queue d q) ∧
         queue d !! 0 = Some r ∧ r :: q ≡ₚ queue d.
Proof.
  intros Hne. unfold next_patient. rewrite decide_True by done.
  destruct (heappop_perm (queue d) Hne) as (r & q & -> & Hr & Hperm).
  by exists r, q.
Qed.

Lemma next_patient_heap (d d' : Doctor) (r : option Patient) :
  heap_inv priority (queue d) → next_patient d = Return (r, d') →
  heap_inv priority (queue d')
  ∧ ∀ p, r = Some p → ∀ x, x ∈ queue d → (priority x ≤ priority p)%Z.
Proof.
  intros Hh. unfold next_patient. case_decide as Hne.
  - destruct (heappop_spec priority Patient_lt_key (queue d) Hh Hne)
      as (p & q & -> & Hroot & Hq & Hperm).
    simpl. intros [= <- <-]. split; [done|]. intros ? [= <-] x Hx.
    by apply (heap_root_max priority (queue d) p Hh Hroot).
  - intros [= <- <-]. by split.
Qed.

Lemma run_ops_spec (ops : list queue_op) : ∀ d : Doctor,
  ∃ rs q, run_ops ops d = Return (rs, set_queue d q) ∧
          length rs = pops ops ∧
          omap id rs ++ q ≡ₚ queue d ++ pushed ops ∧
          (heap_inv priority (queue d) → heap_inv priority q).
Proof.
  induction ops as [|[p|] ops IH]; intros d; simpl.
  - exists [], (queue d). split_and!; try done; [by destruct d|].
    by rewrite app_nil_r.
  - destruct (add_patient_perm d p) as (q1 & Hadd & Hperm1).
    rewrite Hadd. simpl.
    destruct (IH (set_queue d q1)) as (rs & q & Hrun & Hlen & Hperm & Hheap).
    simpl in *. exists rs, q. split_and!; try done.
    + rewrite Hperm, Hperm1. unfold pushed. simpl.
      by rewrite <-app_assoc.
    + intros Hh. apply Hheap.
      by apply (add_patient_heap d (set_queue d q1) p Hh Hadd).
  - destruct (decide (queue d = [])) as [Hnil|Hne].
    + rewrite next_patient_empty by done. simpl.
      destruct (IH d) as (rs & q & -> & Hlen & Hperm & Hheap). simpl.
      exists (None :: rs), q. split_and!; try done.
      unfold pops in *. rewrite filter_cons_True by done. simpl. lia.
    + destruct (next_patient_nonempty d Hne) as (r & q1 & Hpop & _ & Hperm1).
      rewrite Hpop. simpl.
      destruct (IH (set_queue d q1))
        as (rs & q & Hrun & Hlen & Hperm & Hheap).
      simpl in *. rewrite Hrun. simpl.
      exists (Some r :: rs), q. split_and!; try done.
      * unfold pops in *. rewrite filter_cons_True by done. simpl. lia.
      * simpl. unfold pushed in *. simpl. rewrite Hperm, <-Hperm1. done.
      * intros Hh. apply Hheap.
        by apply (next_patient_heap d (set_queue d q1) (Some r) Hh Hpop).
Qed.

(** X5. Any sequence of [add_patient] and [next_patient] calls on a doctor runs
    without an exception, whatever the queue holds at the start. Each
    [next_patient] returns one value; the patients returned together with
    those still queued are exactly the patients queued at the start and
    those pushed: none is lost and none is duplicated. Only the queue of the
    doctor changes. *)
Theorem queue_calls_conserve_patients (ops : list queue_op) (d : Doctor) :
  ∃ rs d',
    run_ops ops d = Return (rs, d') ∧
    d' = set_queue d (queue d') ∧
    length rs = pops ops ∧
    omap id rs ++ queue d' ≡ₚ queue d ++ pushed ops.
Proof.
  destruct (run_ops_spec ops d) as (rs & q & Hrun & Hlen & Hperm & _).
  by exists rs, (set_queue d q).
Qed.

(** X6. The queue of a doctor stays a heap on priority under any sequence of
    [add_patient] and [next_patient] calls, so that the next call of
    [next_patient] returns a patient whose priority no waiting patient
    exceeds. *)
Theorem queue_calls_keep_heap (ops : list queue_op) (d d' : Doctor) rs :
  heap_inv priority (queue d) →
  run_ops ops d = Return (rs, d') →
  heap_inv priority (queue d')
  ∧ ∀ r d'', next_patient d' = Return (Some r, d'') →
      r ∈ queue d' ∧ ∀ x, x ∈ queue d' → (priority x ≤ priority r)%Z.
Proof.
  intros Hh Hrun.
  destruct (run_ops_spec ops d) as (rs' & q & Hrun' & _ & _ & Hheap).
  rewrite Hrun in Hrun'. injection Hrun' as -> ->.
  specialize (Hheap Hh). simpl. split; [done|].
  intros r d'' Hpop.
  destruct (next_patient_heap (set_queue d q) _ _ Hheap Hpop) as [_ Hmax].
  simpl in *.
  split; [|by apply Hmax].
  destruct (decide (q = [])) as [->|Hne]; [done|].
  destruct (next_patient_nonempty (set_queue d q) Hne)
    as (r' & q' & Hpop' & Hroot & _).
  rewrite Hpop in Hpop'. injection Hpop' as -> _.
  by eapply list_elem_of_lookup_2.
Qed.

Lemma queue_calls_keep_heap_witness :
  ∃ rs d',
    run_ops [Push (acute_patient 0 0 3); Push (acute_patient 0 0 4); Pop]
      (set_queue (Build_Doctor "DOC-1" "General" [] [] 10 30) []) 
    = Return (rs, d') ∧ heap_inv priority (queue d').
Proof.
  eexists _, _. split; [by vm_compute|].
  eapply (queue_calls_keep_heap
            [Push (acute_patient 0 0 3); Push (acute_patient 0 0 4); Pop]
            (set_queue (Build_Doctor "DOC-1" "General" [] [] 10 30) []));
    [apply heap_inv_nil|by vm_compute].
Defined.

(** X7. Each [add_patient] raises the estimated wait of the doctor by exactly
    the average consultation time; each [next_patient] on a non-empty queue
    lowers it by as much and returns a patient; on an empty queue
    [next_patient] returns [None] and changes nothing. Neither raises. *)
Theorem estimate_wait_time_steps (d : Doctor) (p : Patient) :
  (∃ d', add_patient d p = Return d' ∧
         estimate_wait_time d'
         = (estimate_wait_time d + avg_consultation_time d)%Z)
  ∧ (queue d = [] ∧ next_patient d = Return (None, d)
     ∧ estimate_wait_time d = 0%Z
     ∨ ∃ r d', next_patient d = Return (Some r, d') ∧ r ∈ queue d ∧
         estimate_wait_time d'
         = (estimate_wait_time d - avg_consultation_time d)%Z).
Proof.
  split.
  - destruct (add_patient_perm d p) as (q & -> & Hperm).
    eexists. split; [done|]. unfold estimate_wait_time. simpl.
    apply Permutation_length in Hperm. rewrite length_app in Hperm.
    simpl in Hperm. rewrite Hperm. lia.
  - destruct (decide (queue d = [])) as [Hnil|Hne].
    + left. split_and!; [done|by apply next_patient_empty|].
      unfold estimate_wait_time. by rewrite Hnil.
    + right. destruct (next_patient_nonempty d Hne)
        as (r & q & -> & Hroot & Hperm).
      exists r, (set_queue d q). split_and!; [done| |].
      * by eapply list_elem_of_lookup_2.
      * unfold estimate_wait_time. simpl.
        apply Permutation_length in Hperm. simpl in Hperm.
        rewrite <-Hperm. lia.
Qed.

(** X8. Pushing a patient whose priority is above that of everyone waiting and
    then calling [next_patient] returns that very patient and leaves the
    patients who were waiting, still in heap order. *)
Theorem add_then_next_returns_urgent (d : Doctor) (p : Patient) :
  heap_inv priority (queue d) →
  (∀ x, x ∈ queue d → (priority x < priority p)%Z) →
  ∃ q1 q2,
    add_patient d p = Return (set_queue d q1) ∧
    next_patient (set_queue d q1) = Return (Some p, set_queue d q2) ∧
    q2 ≡ₚ queue d ∧ heap_inv priority q2.
Proof.
  intros Hh Hmax.
  destruct (add_patient_perm d p) as (q1 & Hadd & Hperm1).
  pose proof (add_patient_heap _ _ _ Hh Hadd) as Hh1. simpl in Hh1.
  assert (q1 ≠ []) as Hne.
  { intros ->. apply Permutation_length in Hperm1.
    rewrite length_app in Hperm1. simpl in Hperm1. lia. }
  destruct (next_patient_nonempty (set_queue d q1) Hne)
    as (r & q2 & Hpop & Hroot & Hperm2). simpl in *.
  destruct (next_patient_heap (set_queue d q1) _ _ Hh1 Hpop)
    as [Hh2 Hrmax]. simpl in *.
  assert (r = p) as ->.
  { assert (r ∈ queue d ++ [p]) as Hr
      by (rewrite <-Hperm1; by eapply list_elem_of_lookup_2).
    apply elem_of_app in Hr as [Hr|Hr]; [|by apply list_elem_of_singleton in Hr].
    assert (p ∈ q1) as Hp by (rewrite Hperm1; set_solver).
    pose proof (Hrmax r eq_refl p Hp). pose proof (Hmax r Hr). lia. }
  exists q1, q2. split_and!; try done.
  apply (Permutation_cons_inv (a := p)).
  rewrite Hperm2, Hperm1. by rewrite Permutation_app_comm.
Qed.

Lemma add_then_next_returns_urgent_witness :
  ∃ q1 q2,
    add_patient (Build_Doctor "DOC-1" "General" [acute_patient 0 0 0] [] 10 30)
      (acute_patient 0 0 4)
    = Return (set_queue
                (Build_Doctor "DOC-1" "General" [acute_patient 0 0 0] [] 10 30)
                q1) ∧
    next_patient
      (set_queue
         (Build_Doctor "DOC-1" "General" [acute_patient 0 0 0] [] 10 30) q1)
    = Return (Some (acute_patient 0 0 4),
              set_queue
                (Build_Doctor "DOC-1" "General" [acute_patient 0 0 0] [] 10
                   30) q2) ∧
    q2 ≡ₚ [acute_patient 0 0 0] ∧ heap_inv priority q2.
Proof.
  apply (add_then_next_returns_urgent
           (Build_Doctor "DOC-1" "General" [acute_patient 0 0 0] [] 10 30)
           (acute_patient 0 0 4)).
  - intros [|i] Hi x y Hx Hy; [lia|]. simpl in Hy. by destruct i.
  - intros x Hx. apply list_elem_of_singleton in Hx as ->. by vm_compute.
Defined.

(** ** The registry of doctors *)

Lemma dict_setitem_keys {V : Type} (d : list (string * V)) k v :
  (dict_setitem d k v).*1 = if decide (k ∈ d.*1) then d.*1 else d.*1 ++ [k].
Proof.
  induction d as [|[k' v'] d IH]; [done|]. cbn [dict_setitem].
  destruct (decide (k' = k)) as [->|Hne]; rewrite !fmap_cons; cbn [fst].
  - by rewrite decide_True by (by left).
  - rewrite IH. destruct (decide (k ∈ d.*1)).
    + by rewrite decide_True by (by right).
    + by rewrite decide_False by (by intros [->|?]%elem_of_cons).
Qed.

Lemma dict_setitem_NoDup {V : Type} (d : list (string * V)) k v :
  NoDup d.*1 → NoDup (dict_setitem d k v).*1.
Proof.
  intros Hd. rewrite dict_setitem_keys. case_decide; [done|].
  apply NoDup_app. split_and!; [done| |apply NoDup_singleton].
  by intros x Hx ->%list_elem_of_singleton.
Qed.

Lemma dict_lookup_setitem {V : Type} (d : list (string * V)) k v k' :
  dict_lookup (dict_setitem d k v) k'
  = if decide (k = k') then Some v else dict_lookup d k'.
Proof.
  induction d as [|[k0 v0] d IH]; simpl.
  - destruct (decide (k = k')); done.
  - destruct (decide (k0 = k)) as [->|Hne]; simpl.
    + destruct (decide (k = k')); done.
    + rewrite IH. destruct (decide (k0 = k')) as [->|Hne'];
        [by rewrite decide_False by done|done].
Qed.

Lemma dict_setitem_other_slot {V : Type} (d : list (string * V)) k v i k' v' :
  k' ≠ k → d !! i = Some (k', v') → dict_setitem d k v !! i = Some (k', v').
Proof.
  revert i. induction d as [|[k0 v0] d IH]; intros i Hne Hi; [done|].
  simpl. destruct (decide (k0 = k)) as [->|Hne0].
  - destruct i as [|i]; simpl in *; [congruence|done].
  - destruct i as [|i]; simpl in *; [done|by apply IH].
Qed.

Lemma dict_lookup_slot {V : Type} (d : list (string * V)) k v :
  dict_lookup d k = Some v → ∃ i, d !! i = Some (k, v).
Proof.
  induction d as [|[k0 v0] d IH]; simpl; [done|].
  destruct (decide (k0 = k)) as [->|Hne].
  - intros [= ->]. by exists 0.
  - intros Hd. destruct (IH Hd) as [i Hi]. by exists (S i).
Qed.

Lemma Doctor_init_spec id spec blocks_arg (w : World) :
  let d := (Doctor_init id spec blocks_arg w).1 in
  doctor_id d = id ∧ specialization d = spec ∧ queue d = []
  ∧ (10 ≤ avg_consultation_time d ≤ 25)%Z
  ∧ (30 ≤ daily_capacity d ≤ 50)%Z
  ∧ (blocks_arg = Some (availability_blocks d)
     ∧ availability_blocks d ≠ []
     ∨ (blocks_arg = None ∨ blocks_arg = Some [])
       ∧ availability_blocks d = (_generate_availability_blocks w).1).
Proof.
  unfold Doctor_init, list_or, mbind, Sys_bind, mret, Sys_ret.
  destruct blocks_arg as [[|b bs]|]; cbv beta iota;
    try (destruct (_generate_availability_blocks w) as [gen w1]);
    repeat step_init; simpl in *;
    split_and!; auto; try lia.
Qed.

(** X9. A doctor [Doctor.__init__] creates has the id and specialization given,
    an empty queue, an average consultation time from 10 to 25 minutes and a
    daily capacity from 30 to 50. A non-empty list of availability blocks is
    kept as given; when none or an empty list is given, the two generated
    blocks are stored. *)
Theorem Doctor_init_fields id spec blocks_arg (w : World) :
  let d := (Doctor_init id spec blocks_arg w).1 in
  doctor_id d = id ∧ specialization d = spec ∧ queue d = []
  ∧ estimate_wait_time d = 0%Z
  ∧ (10 ≤ avg_consultation_time d ≤ 25)%Z
  ∧ (30 ≤ daily_capacity d ≤ 50)%Z
  ∧ (blocks_arg = Some (availability_blocks d)
     ∧ availability_blocks d ≠ []
     ∨ (blocks_arg = None ∨ blocks_arg = Some [])
       ∧ length (availability_blocks d) = 2).
Proof.
  intros d.
  destruct (Doctor_init_spec id spec blocks_arg w)
    as (Hid & Hspec & Hq & Havg & Hcap & Hblocks).
  fold d in Hid, Hspec, Hq, Havg, Hcap, Hblocks.
  do 3 (split; [done|]).
  split; [unfold estimate_wait_time; by rewrite Hq|].
  do 2 (split; [done|]).
  destruct Hblocks as [?|[? Hgen]]; [by left|].
  right. split; [done|]. by rewrite Hgen.
Qed.

(** a datetime is given by its fields *)
Lemma datetime_fields (t : datetime) :
  t = (date_of t * 86400000000 + hour_of t * 3600000000
       + minute_of t * 60000000 + second_of t)%Z.
Proof.
  unfold date_of, hour_of, minute_of, second_of.
  Z.div_mod_to_equations; lia.
Qed.

(** [replace] sets the hour and the minute and keeps the other fields *)
Lemma replace_hour_minute_fields (t : datetime) (h m : Z) :
  (0 ≤ h < 24)%Z → (0 ≤ m < 60)%Z →
  date_of (replace_hour_minute t h m) = date_of t
  ∧ hour_of (replace_hour_minute t h m) = h
  ∧ minute_of (replace_hour_minute t h m) = m
  ∧ second_of (replace_hour_minute t h m) = second_of t.
Proof.
  intros Hh Hm.
  unfold date_of, hour_of, minute_of, second_of, replace_hour_minute.
  split_and!; Z.div_mod_to_equations; lia.
Qed.

Lemma replace_hour_minute_lt (t t' : datetime) (h h' : Z) :
  (t ≤ t')%Z → (0 ≤ h)%Z → (h < h')%Z →
  (replace_hour_minute t h 0 < replace_hour_minute t' h' 0)%Z.
Proof.
  intros Ht Hh Hlt. unfold replace_hour_minute.
  pose proof (Z.div_le_mono t t' 86400000000 ltac:(lia) Ht).
  pose proof (Z.mod_pos_bound t 60000000 ltac:(lia)).
  pose proof (Z.mod_pos_bound t' 60000000 ltac:(lia)).
  lia.
Qed.

(** X10. [_generate_availability_blocks] returns two blocks, of four clock
    readings: each bound keeps the date, the seconds and the microseconds of
    its own reading and is at 9:00, 12:00, 15:00 and 18:00 of that day.
    When the clock does not run backwards over the four readings the blocks
    are well formed and in order: each starts before it ends, and the first
    ends before the second starts. *)
Theorem generated_blocks_ordered (w : World) :
  let t0 := clock w (ticks w) in
  let t1 := clock w (S (ticks w)) in
  let t2 := clock w (S (S (ticks w))) in
  let t3 := clock w (S (S (S (ticks w)))) in
  ∃ s1 e1 s2 e2,
    (_generate_availability_blocks w).1 = [(s1, e1); (s2, e2)]
    ∧ (date_of s1, hour_of s1, minute_of s1, second_of s1)
      = (date_of t0, 9%Z, 0%Z, second_of t0)
    ∧ (date_of e1, hour_of e1, minute_of e1, second_of e1)
      = (date_of t1, 12%Z, 0%Z, second_of t1)
    ∧ (date_of s2, hour_of s2, minute_of s2, second_of s2)
      = (date_of t2, 15%Z, 0%Z, second_of t2)
    ∧ (date_of e2, hour_of e2, minute_of e2, second_of e2)
      = (date_of t3, 18%Z, 0%Z, second_of t3)
    ∧ ((t0 ≤ t1)%Z → (t1 ≤ t2)%Z → (t2 ≤ t3)%Z →
       (s1 < e1 < s2)%Z ∧ (s2 < e2)%Z).
Proof.
  intros t0 t1 t2 t3.
  exists (replace_hour_minute t0 9 0), (replace_hour_minute t1 12 0),
    (replace_hour_minute t2 15 0), (replace_hour_minute t3 18 0).
  split; [done|].
  destruct (replace_hour_minute_fields t0 9 0) as (-> & -> & -> & ->);
    [lia..|].
  destruct (replace_hour_minute_fields t1 12 0) as (-> & -> & -> & ->);
    [lia..|].
  destruct (replace_hour_minute_fields t2 15 0) as (-> & -> & -> & ->);
    [lia..|].
  destruct (replace_hour_minute_fields t3 18 0) as (-> & -> & -> & ->);
    [lia..|].
  split_and!; try done. intros H01 H12 H23.
  pose proof (replace_hour_minute_lt t0 t1 9 12 H01).
  pose proof (replace_hour_minute_lt t1 t2 12 15 H12).
  pose proof (replace_hour_minute_lt t2 t3 15 18 H23).
  lia.
Qed.

Lemma generated_blocks_ordered_witness :
  ∃ s1 e1 s2 e2,
    (_generate_availability_blocks (frozen_world 1700000000000000 0)).1
    = [(s1, e1); (s2, e2)]
    ∧ (s1 < e1 < s2)%Z ∧ (s2 < e2)%Z.
Proof.
  destruct (generated_blocks_ordered (frozen_world 1700000000000000 0))
    as (s1 & e1 & s2 & e2 & Heq & _ & _ & _ & _ & H).
  exists s1, e1, s2, e2. split; [exact Heq|].
  apply H; by vm_compute.
Defined.

Lemma add_doctor_result (self : QueueManagementSystem) id spec blocks_arg
    (w : World) :
  (add_doctor self id spec blocks_arg w).1
  = {| doctors := dict_setitem (doctors self) id
                    (Doctor_init id spec blocks_arg w).1 |}.
Proof.
  unfold add_doctor, mbind, Sys_bind, mret, Sys_ret.
  by destruct (Doctor_init id spec blocks_arg w).
Qed.

Lemma add_doctor_world (self : QueueManagementSystem) id spec blocks_arg
    (w : World) :
  (add_doctor self id spec blocks_arg w).2
  = (Doctor_init id spec blocks_arg w).2.
Proof.
  unfold add_doctor, mbind, Sys_bind, mret, Sys_ret.
  by destruct (Doctor_init id spec blocks_arg w).
Qed.

(** X11. [add_doctor] registers the new doctor under its id: looking the id up
    afterwards gives the doctor just created, with an empty queue. A doctor
    already registered under that id is replaced in its place, and the
    patients it had queued are dropped with it; a new id is appended. Every
    other entry keeps its doctor and its place, and ids stay unique. *)
Theorem add_doctor_registers (self : QueueManagementSystem) id spec
    blocks_arg (w : World) :
  let d := (Doctor_init id spec blocks_arg w).1 in
  let self' := (add_doctor self id spec blocks_arg w).1 in
  dict_lookup (doctors self') id = Some d ∧ queue d = []
  ∧ (∀ k, k ≠ id →
       dict_lookup (doctors self') k = dict_lookup (doctors self) k)
  ∧ (doctors self').*1
    = (if decide (id ∈ (doctors self).*1) then (doctors self).*1
       else (doctors self).*1 ++ [id])
  ∧ (NoDup (doctors self).*1 → NoDup (doctors self').*1)
  ∧ (∀ ref k v, k ≠ id → doctors self !! ref = Some (k, v) →
       doctors self' !! ref = Some (k, v)).
Proof.
  intros d self'. subst self'. rewrite add_doctor_result. fold d. simpl.
  split_and!.
  - rewrite dict_lookup_setitem. by rewrite decide_True.
  - by destruct (Doctor_init_spec id spec blocks_arg w) as (_ & _ & ? & _).
  - intros k Hk. rewrite dict_lookup_setitem. by rewrite decide_False.
  - apply dict_setitem_keys.
  - apply dict_setitem_NoDup.
  - intros ref k v Hk Hv. by apply dict_setitem_other_slot.
Qed.

Lemma dict_setitem_fresh {V : Type} (d : list (string * V)) k v :
  k ∉ d.*1 → dict_setitem d k v = d ++ [(k, v)].
Proof.
  induction d as [|[k0 v0] d IH]; intros Hk; [done|]. cbn [dict_setitem].
  rewrite fmap_cons in Hk. apply not_elem_of_cons in Hk as [Hne Hk].
  simpl in Hne. rewrite decide_False by done. by rewrite IH.
Qed.

Lemma doctor_key_inj (i j : nat) :
  "DOC-" +:+ pretty (i + 1) = "DOC-" +:+ pretty (j + 1) → i = j.
Proof.
  intros H. apply (inj (String.app "DOC-")) in H.
  apply (inj pretty) in H. lia.
Qed.

Lemma init_doctors_spec (remaining : nat) :
  ∀ (i : nat) (self : QueueManagementSystem) (w : World),
    (doctors self).*1 = (λ j, "DOC-" +:+ pretty (j + 1)) <$> seq 0 i →
    Forall (λ kv : string * Doctor,
              doctor_id kv.2 = kv.1 ∧ queue kv.2 = []
              ∧ specialization kv.2
                ∈ ["General"; "Pediatrics"; "Cardiology"; "Neurology";
                   "Orthopedics"]
              ∧ (10 ≤ avg_consultation_time kv.2 ≤ 25)%Z
              ∧ (30 ≤ daily_capacity kv.2 ≤ 50)%Z
              ∧ length (availability_blocks kv.2) = 2)
           (doctors self) →
    let self' := (init_doctors remaining i self w).1 in
    (doctors self').*1
    = (λ j, "DOC-" +:+ pretty (j + 1)) <$> seq 0 (i + remaining)
    ∧ Forall (λ kv : string * Doctor,
                doctor_id kv.2 = kv.1 ∧ queue kv.2 = []
                ∧ specialization kv.2
                  ∈ ["General"; "Pediatrics"; "Cardiology"; "Neurology";
                     "Orthopedics"]
                ∧ (10 ≤ avg_consultation_time kv.2 ≤ 25)%Z
                ∧ (30 ≤ daily_capacity kv.2 ≤ 50)%Z
                ∧ length (availability_blocks kv.2) = 2)
             (doctors self').
Proof.
  induction remaining as [|remaining IH]; intros i self w Hkeys Hall.
  { simpl. by rewrite Nat.add_0_r. }
  cbn [init_doctors]. unfold mbind, Sys_bind. cbv zeta.
  pose proof (random_choice_elem "General"
                ["Pediatrics"; "Cardiology"; "Neurology"; "Orthopedics"] w)
    as Hspec.
  destruct (random_choice "General" _ w) as [spec w1]. simpl in Hspec.
  pose proof (add_doctor_result self ("DOC-" +:+ pretty (i + 1)) spec None
                w1) as Hadd.
  destruct (add_doctor self ("DOC-" +:+ pretty (i + 1)) spec None w1)
    as [self1 w2]. simpl in Hadd. subst self1.
  assert ("DOC-" +:+ pretty (i + 1) ∉ (doctors self).*1) as Hfresh.
  { rewrite Hkeys. intros (j & Heq & Hj)%list_elem_of_fmap.
    apply doctor_key_inj in Heq. apply elem_of_seq in Hj. lia. }
  rewrite dict_setitem_fresh by done.
  replace (i + S remaining) with (S i + remaining) by lia.
  apply IH; cbn [doctors].
  - rewrite fmap_app, Hkeys, seq_S, fmap_app. done.
  - apply Forall_app. split; [done|]. apply Forall_singleton. cbn [fst snd].
    destruct (Doctor_init_spec ("DOC-" +:+ pretty (i + 1)) spec None w1)
      as (Hid & Hs & Hq & [? ?] & [? ?] & Hblocks).
    split_and!; done.
Qed.

Lemma QueueManagementSystem_init_spec (num_doctors : nat) (w : World) :
  let self := (QueueManagementSystem_init num_doctors w).1 in
  (doctors self).*1
  = (λ j, "DOC-" +:+ pretty (j + 1)) <$> seq 0 num_doctors
  ∧ Forall (λ kv : string * Doctor,
              doctor_id kv.2 = kv.1 ∧ queue kv.2 = []
              ∧ specialization kv.2
                ∈ ["General"; "Pediatrics"; "Cardiology"; "Neurology";
                   "Orthopedics"]
              ∧ (10 ≤ avg_consultation_time kv.2 ≤ 25)%Z
              ∧ (30 ≤ daily_capacity kv.2 ≤ 50)%Z
              ∧ length (availability_blocks kv.2) = 2)
           (doctors self).
Proof.
  unfold QueueManagementSystem_init.
  by apply (init_doctors_spec num_doctors 0 {| doctors := [] |} w);
    [|apply Forall_nil].
Qed.

Lemma total_queued_empty_queues (self : QueueManagementSystem) :
  Forall (λ kv : string * Doctor, queue kv.2 = []) (doctors self) →
  total_queued self = 0.
Proof.
  unfold total_queued. induction 1 as [|kv l Hq _ IH]; [done|].
  rewrite fmap_cons. simpl. by rewrite Hq, IH.
Qed.

(** X12. [QueueManagementSystem(num_doctors)] registers exactly [num_doctors]
    doctors, under the distinct ids "DOC-1", "DOC-2", ... in that order.
    Each has its key as id, an empty queue, one of the five
    specializations, an average consultation time from 10 to 25, a capacity
    from 30 to 50 and two availability blocks; no patient is waiting. *)
Theorem QueueManagementSystem_init_registry (num_doctors : nat) (w : World) :
  let self := (QueueManagementSystem_init num_doctors w).1 in
  (doctors self).*1
  = (λ j, "DOC-" +:+ pretty (j + 1)) <$> seq 0 num_doctors
  ∧ NoDup (doctors self).*1
  ∧ length (doctors self) = num_doctors
  ∧ total_queued self = 0
  ∧ Forall (λ kv : string * Doctor,
              doctor_id kv.2 = kv.1 ∧ queue kv.2 = []
              ∧ specialization kv.2
                ∈ ["General"; "Pediatrics"; "Cardiology"; "Neurology";
                   "Orthopedics"]
              ∧ (10 ≤ avg_consultation_time kv.2 ≤ 25)%Z
              ∧ (30 ≤ daily_capacity kv.2 ≤ 50)%Z
              ∧ length (availability_blocks kv.2) = 2)
           (doctors self).
Proof.
  intros self.
  destruct (QueueManagementSystem_init_spec num_doctors w) as [Hkeys Hall].
  fold self in Hkeys, Hall.
  split_and!; [done| | | |done].
  - rewrite Hkeys. apply NoDup_fmap_2_strong; [|apply NoDup_seq].
    intros i j _ _. apply doctor_key_inj.
  - rewrite <-(length_fmap fst), Hkeys, length_fmap. apply length_seq.
  - apply total_queued_empty_queues.
    eapply Forall_impl; [exact Hall|]. by intros kv (_ & Hq & _).
Qed.

(** ** Assignments, one and many *)

Lemma required_specialization_elem (c : condition) :
  required_specialization c
  ∈ ["General"; "Cardiology"; "Orthopedics"; "Neurology"].
Proof.
  unfold required_specialization.
  repeat case_decide; rewrite !elem_of_cons; auto.
Qed.

Lemma suitable_specialization (d : Doctor) (p : Patient) :
  suitable d p →
  specialization d ∈ ["General"; "Cardiology"; "Orthopedics"; "Neurology"].
Proof.
  intros [->| ->]; [by left|apply required_specialization_elem].
Qed.

Lemma assign_patient_returns (self : QueueManagementSystem)
    (patient : Patient) (w : World) ref d :
  doctor_at self ref = Some d → suitable d patient →
  ∃ ref' self' w',
    assign_patient self patient w = (Return (ref', self'), w').
Proof.
  intros Hd Hs.
  assert (candidates self patient ≠ []) as Hne.
  { eapply elem_of_not_nil, elem_of_candidates. done. }
  destruct (py_min_spec (λ c, estimate_wait_time c.2) _ Hne)
    as (i & [r b] & Hmin & _).
  unfold assign_patient. rewrite Hmin.
  destruct (add_patient_perm b patient) as (q & -> & _).
  destruct (send_notification patient _ w) as [u w']. by eexists _, _, _.
Qed.


(** X14. [assign_patient] never selects a doctor whose specialization is not
    General, Cardiology, Orthopedics or Neurology: no condition maps to any
    other specialization, so a Pediatrics doctor is suitable for no patient
    and its entry is the same after every assignment. *)
Theorem assign_patient_skips_other_specializations
    (self : QueueManagementSystem) (patient : Patient) (w : World) ref self'
    w' :
  assign_patient self patient w = (Return (ref, self'), w') →
  (∃ d, doctor_at self ref = Some d ∧
        specialization d
        ∈ ["General"; "Cardiology"; "Orthopedics"; "Neurology"])
  ∧ ∀ ref' d', doctor_at self ref' = Some d' →
      specialization d'
      ∉ ["General"; "Cardiology"; "Orthopedics"; "Neurology"] →
      _is_doctor_suitable d' patient = false
      ∧ doctors self' !! ref' = doctors self !! ref'.
Proof.
  intros Hrun.
  apply assign_patient_inv in Hrun as (d & q & Hmin & _ & _ & -> & _).
  pose proof (selection_spec _ _ _ _ Hmin) as (Hd & Hs & _).
  split; [exists d; split; [done|by eapply suitable_specialization]|].
  intros ref' d' Hd' Hspec. split.
  - destruct (_is_doctor_suitable d' patient) eqn:Hsuit; [|done].
    exfalso. apply Hspec. eapply suitable_specialization.
    apply _is_doctor_suitable_spec. by rewrite Hsuit.
  - apply doctors_store_ne. intros ->.
    rewrite Hd in Hd'. injection Hd' as <-.
    apply Hspec. by eapply suitable_specialization.
Qed.

Lemma assign_patient_skips_other_specializations_witness :
  ∃ d, doctor_at two_generals 0 = Some d ∧
       specialization d
       ∈ ["General"; "Cardiology"; "Orthopedics"; "Neurology"].
Proof.
  destruct (assign_patient_skips_other_specializations two_generals
              (acute_patient 0 0 3) (frozen_world 0 0) 0 two_generals_after
              world_after) as [Hsel _]; [by vm_compute|].
  exact Hsel.
Defined.

Lemma queued_after_store (l : list (string * Doctor)) :
  ∀ ref k d q (p : Patient),
    l !! ref = Some (k, d) → q ≡ₚ queue d ++ [p] →
    sum_list ((λ kv, length (queue kv.2))
              <$> alter (λ kv, (kv.1, set_queue d q)) ref l)
    = S (sum_list ((λ kv, length (queue kv.2)) <$> l))
    ∧ concat ((λ kv, queue kv.2)
              <$> alter (λ kv, (kv.1, set_queue d q)) ref l)
      ≡ₚ p :: concat ((λ kv, queue kv.2) <$> l).
Proof.
  induction l as [|[k0 d0] l IH]; intros ref k d q p Hl Hperm; [done|].
  destruct ref as [|ref]; simpl in Hl.
  - injection Hl as -> ->. simpl. split.
    + apply Permutation_length in Hperm. rewrite length_app in Hperm.
      simpl in Hperm. lia.
    + rewrite Hperm. rewrite <-app_assoc. simpl.
      by rewrite <-Permutation_middle.
  - destruct (IH ref k d q p Hl Hperm) as [Hsum Hcat].
    rewrite !fmap_cons. cbn [alter list_alter].
    rewrite !fmap_cons. cbn [sum_list sum_list_with concat]. split.
    + fold (sum_list ((λ kv : string * Doctor, length (queue kv.2))
                      <$> alter (λ kv, (kv.1, set_queue d q)) ref l)).
      rewrite Hsum. simpl. lia.
    + rewrite Hcat. by rewrite <-Permutation_middle.
Qed.

Lemma send_notification_frame (patient : Patient) (message : string)
    (w : World) :
  let w' := (send_notification patient message w).2 in
  clock w' = clock w ∧ ticks w' = ticks w ∧ entropy w' = entropy w
  ∧ draws w' = draws w ∧ uuid_source w' = uuid_source w
  ∧ uuids w' = uuids w ∧ length (outbox w') = S (length (outbox w)).
Proof.
  simpl. split_and!; try done. rewrite length_app. simpl. lia.
Qed.

Lemma assign_patient_step (self : QueueManagementSystem) (patient : Patient)
    (w : World) ref self' w' :
  assign_patient self patient w = (Return (ref, self'), w') →
  total_queued self' = S (total_queued self)
  ∧ all_queued self' ≡ₚ patient :: all_queued self
  ∧ (queues_are_heaps self → queues_are_heaps self')
  ∧ (∀ ref' d, doctor_at self ref' = Some d →
       ∃ d', doctor_at self' ref' = Some d'
             ∧ specialization d' = specialization d)
  ∧ (clock w' = clock w ∧ ticks w' = ticks w ∧ entropy w' = entropy w
     ∧ draws w' = draws w ∧ uuid_source w' = uuid_source w
     ∧ uuids w' = uuids w ∧ length (outbox w') = S (length (outbox w))).
Proof.
  intros Hrun.
  apply assign_patient_inv in Hrun
    as (d & q & Hmin & Hadd & Hperm & -> & ->).
  pose proof (selection_spec _ _ _ _ Hmin) as (Hd & _).
  unfold doctor_at in Hd.
  destruct (doctors self !! ref) as [[k d0]|] eqn:Hslot; [|done].
  simpl in Hd. injection Hd as ->.
  destruct (queued_after_store (doctors self) ref k d q patient Hslot Hperm)
    as [Hsum Hcat].
  do 2 (split; [done|]).
  split; [|split; [|apply send_notification_frame]].
  - intros Hheaps ref' d'. unfold doctor_at, store_doctor. simpl.
    destruct (decide (ref = ref')) as [<-|Hne].
    + rewrite list_lookup_alter_eq, Hslot. simpl. intros [= <-]. simpl.
      assert (heap_inv priority (queue d)) as Hh.
      { apply (Hheaps ref). unfold doctor_at. by rewrite Hslot. }
      by apply (add_patient_heap d (set_queue d q) patient Hh Hadd).
    + rewrite list_lookup_alter_ne by done. apply Hheaps.
  - intros ref' d'. unfold doctor_at, store_doctor. simpl.
    destruct (decide (ref = ref')) as [<-|Hne].
    + rewrite list_lookup_alter_eq, Hslot. simpl. intros [= <-].
      by exists (set_queue d q).
    + rewrite list_lookup_alter_ne by done. intros Hd'. by exists d'.
Qed.

(** X15. A successful [assign_patient] adds exactly one waiting patient to the
    system, the assigned one, and loses none; it keeps every queue a heap on
    priority; it reads neither the clock nor the random generator. *)
Theorem assign_patient_conserves (self : QueueManagementSystem)
    (patient : Patient) (w : World) ref self' w' :
  assign_patient self patient w = (Return (ref, self'), w') →
  total_queued self' = S (total_queued self)
  ∧ all_queued self' ≡ₚ patient :: all_queued self
  ∧ (queues_are_heaps self → queues_are_heaps self')
  ∧ clock w' = clock w ∧ ticks w' = ticks w ∧ entropy w' = entropy w
  ∧ draws w' = draws w ∧ uuid_source w' = uuid_source w
  ∧ uuids w' = uuids w.
Proof.
  intros Hrun.
  destruct (assign_patient_step _ _ _ _ _ _ Hrun)
    as (Hsum & Hcat & Hheap & _ & Hc & Ht & He & Hdr & Hus & Hu & _).
  by split_and!.
Qed.

Lemma assign_patient_conserves_witness :
  total_queued two_generals_after = S (total_queued two_generals)
  ∧ all_queued two_generals_after
    ≡ₚ acute_patient 0 0 3 :: all_queued two_generals.
Proof.
  destruct (assign_patient_conserves two_generals (acute_patient 0 0 3)
              (frozen_world 0 0) 0 two_generals_after world_after)
    as (Hsum & Hcat & _); [by vm_compute|].
  by split.
Defined.




(** ** main *)

Lemma Patient_init_outbox name_arg contact_arg sched_arg source_arg cond_arg
    (w : World) :
  outbox (Patient_init name_arg contact_arg sched_arg source_arg cond_arg
            w).2 = outbox w.
Proof.
  unfold Patient_init, str_or, val_or, mbind, Sys_bind, mret, Sys_ret.
  destruct name_arg as [nm|], source_arg as [src|], cond_arg as [c|],
    sched_arg as [t|]; repeat case_decide; done.
Qed.

Lemma Doctor_init_outbox id spec blocks_arg (w : World) :
  outbox (Doctor_init id spec blocks_arg w).2 = outbox w.
Proof. by destruct blocks_arg as [[|b bs]|]. Qed.

Lemma init_doctors_outbox (remaining : nat) :
  ∀ (i : nat) (self : QueueManagementSystem) (w : World),
    outbox (init_doctors remaining i self w).2 = outbox w.
Proof.
  induction remaining as [|remaining IH]; intros i self w; [done|].
  cbn [init_doctors]. unfold mbind, Sys_bind. cbv zeta.
  pose proof (random_choice_frame "General"
                ["Pediatrics"; "Cardiology"; "Neurology"; "Orthopedics"] w)
    as (_ & _ & Hout & _).
  destruct (random_choice "General" _ w) as [spec w1]. simpl in Hout.
  pose proof (add_doctor_world self ("DOC-" +:+ pretty (i + 1)) spec None w1)
    as Hw.
  destruct (add_doctor self ("DOC-" +:+ pretty (i + 1)) spec None w1)
    as [self1 w2]. cbn [snd] in Hw. subst w2.
  by rewrite IH, Doctor_init_outbox.
Qed.

Lemma QueueManagementSystem_init_outbox (num_doctors : nat) (w : World) :
  outbox (QueueManagementSystem_init num_doctors w).2 = outbox w.
Proof. apply init_doctors_outbox. Qed.

Lemma main_loop_raises (remaining i : nat) (qms : QueueManagementSystem)
    (w : World) :
  (∀ ref d, doctor_at qms ref = Some d →
            specialization d
            ∉ ["General"; "Cardiology"; "Orthopedics"; "Neurology"]) →
  ∃ w', main_loop (S remaining) i qms w = (([], Raise ValueError), w')
        ∧ outbox w' = outbox w.
Proof.
  intros Hnone. cbn [main_loop].
  assert (outbox (datetime_now w).2 = outbox w) as F1 by done.
  destruct (datetime_now w) as [now w1]. simpl in F1.
  pose proof (random_randint_frame 0 60 w1) as (_ & _ & F2 & _).
  destruct (random_randint 0 60 w1) as [minutes w2]. simpl in F2.
  pose proof (random_choice_frame "App" ["Walk-in"; "WhatsApp"] w2)
    as (_ & _ & F3 & _).
  destruct (random_choice "App" ["Walk-in"; "WhatsApp"] w2) as [src w3].
  simpl in F3.
  pose proof (Patient_init_outbox (Some ("Patient_" +:+ pretty i)) None
                (Some (now + minutes * 60000000)%Z) (Some src) None w3)
    as F4.
  destruct (Patient_init _ _ _ _ _ w3) as [patient w4]. simpl in F4.
  rewrite assign_patient_no_candidate.
  - exists w4. split; [done|congruence].
  - apply elem_of_nil_inv. intros [ref d] Hin.
    apply elem_of_candidates in Hin as [Hd Hs].
    apply (Hnone ref d Hd). by eapply suitable_specialization.
Qed.

Lemma main_loop_spec (remaining : nat) :
  ∀ (i : nat) (qms : QueueManagementSystem) (w : World),
    (∃ ref d, doctor_at qms ref = Some d ∧ specialization d = "General") →
    ∃ lines qms' w',
      main_loop remaining i qms w = ((lines, Return qms'), w') ∧
      length lines = remaining ∧
      total_queued qms' = total_queued qms + remaining ∧
      length (outbox w') = length (outbox w) + remaining ∧
      (queues_are_heaps qms → queues_are_heaps qms').
Proof.
  induction remaining as [|remaining IH]; intros i qms w Hgen.
  { exists [], qms, w. simpl. split_and!; try done; lia. }
  cbn [main_loop].
  assert (outbox (datetime_now w).2 = outbox w) as F1 by done.
  destruct (datetime_now w) as [now w1]. simpl in F1.
  pose proof (random_randint_frame 0 60 w1) as (_ & _ & F2 & _).
  destruct (random_randint 0 60 w1) as [minutes w2]. simpl in F2.
  pose proof (random_choice_frame "App" ["Walk-in"; "WhatsApp"] w2)
    as (_ & _ & F3 & _).
  destruct (random_choice "App" ["Walk-in"; "WhatsApp"] w2) as [src w3].
  simpl in F3.
  pose proof (Patient_init_outbox (Some ("Patient_" +:+ pretty i)) None
                (Some (now + minutes * 60000000)%Z) (Some src) None w3)
    as F4.
  destruct (Patient_init _ _ _ _ _ w3) as [patient w4]. simpl in F4.
  destruct Hgen as (g & dg & Hdg & Hg).
  destruct (assign_patient_returns qms patient w4 g dg Hdg (or_introl Hg))
    as (ref & qms1 & w5 & Hrun).
  destruct (assign_patient_step _ _ _ _ _ _ Hrun)
    as (Hsum & _ & Hheap & Hspec & _ & _ & _ & _ & _ & _ & Hout).
  destruct (Hspec g dg Hdg) as (dg' & Hdg' & Hg').
  destruct (IH (S i) qms1 w5)
    as (lines & qms' & w' & Hloop & Hlen & Hsum' & Hout' & Hheap').
  { exists g, dg'. split; [done|congruence]. }
  rewrite Hrun, Hloop. eexists _, qms', w'.
  split_and!; try done; simpl; try lia; auto.
  rewrite Hout', Hout, F4, F3, F2, F1. lia.
Qed.

(** X17. When the constructor has drawn at least one General doctor, [main] runs
    to its end without an exception: it prints 100 lines and emits 100
    notifications, and at the end 100 patients are waiting, in queues that
    are heaps on priority. *)
Theorem main_completes_with_General (w : World) :
  (∃ ref d, doctor_at (QueueManagementSystem_init 50 w).1 ref = Some d
            ∧ specialization d = "General") →
  ∃ lines qms w',
    main w = ((lines, Return qms), w') ∧
    length lines = 100 ∧
    total_queued qms = 100 ∧
    length (outbox w') = length (outbox w) + 100 ∧
    queues_are_heaps qms.
Proof.
  intros Hgen. unfold main.
  destruct (QueueManagementSystem_init_spec 50 w) as [_ Hall].
  pose proof (QueueManagementSystem_init_outbox 50 w) as Hout0.
  destruct (QueueManagementSystem_init 50 w) as [qms0 w0].
  cbn [fst snd] in Hgen, Hall, Hout0.
  destruct (main_loop_spec 100 0 qms0 w0 Hgen)
    as (lines & qms & w' & Hloop & Hlen & Hsum & Hout & Hheap).
  exists lines, qms, w'.
  assert (total_queued qms0 = 0) as Hzero.
  { apply total_queued_empty_queues.
    eapply Forall_impl; [exact Hall|]. by intros kv (_ & Hq & _). }
  split; [exact Hloop|]. split; [exact Hlen|].
  split; [rewrite Hsum, Hzero; apply Nat.add_0_l|].
  split; [by rewrite Hout, Hout0|].
  apply Hheap. intros ref d Hd. unfold doctor_at in Hd.
  destruct (doctors qms0 !! ref) as [kv|] eqn:Hkv; [|done].
  injection Hd as <-.
  eapply Forall_lookup_1 in Hall as (_ & -> & _); [|done].
  apply heap_inv_nil.
Qed.

Lemma main_completes_with_General_witness :
  ∃ lines qms w',
    main (frozen_world 0 0) = ((lines, Return qms), w') ∧
    length lines = 100 ∧ total_queued qms = 100.
Proof.
  destruct (main_completes_with_General (frozen_world 0 0))
    as (lines & qms & w' & Hmain & Hlen & Hsum & _).
  { exists 0. eexists. split; [by vm_compute|done]. }
  exists lines, qms, w'. split; [exact Hmain|]. split; [exact Hlen|].
  exact Hsum.
Defined.

(** X18. When the constructor has drawn no General, Cardiology, Orthopedics or
    Neurology doctor, [main] ends with the [ValueError] of the first
    assignment: it prints no line and emits no notification. *)
Theorem main_raises_without_suitable_doctor (w : World) :
  (∀ ref d, doctor_at (QueueManagementSystem_init 50 w).1 ref = Some d →
            specialization d
            ∉ ["General"; "Cardiology"; "Orthopedics"; "Neurology"]) →
  ∃ w', main w = (([], Raise ValueError), w') ∧ outbox w' = outbox w.
Proof.
  intros Hnone. unfold main.
  pose proof (QueueManagementSystem_init_outbox 50 w) as Hout0.
  destruct (QueueManagementSystem_init 50 w) as [qms0 w0].
  cbn [fst snd] in Hnone, Hout0.
  destruct (main_loop_raises 99 0 qms0 w0 Hnone) as (w' & Hloop & Hout).
  exists w'. split; [exact Hloop|]. by rewrite Hout.
Qed.

Lemma no_suitable_of_all_Pediatrics (self : QueueManagementSystem) :
  Forall (λ kv : string * Doctor, specialization kv.2 = "Pediatrics")
         (doctors self) →
  ∀ ref d, doctor_at self ref = Some d →
           specialization d
           ∉ ["General"; "Cardiology"; "Orthopedics"; "Neurology"].
Proof.
  intros Hall ref d Hd. unfold doctor_at in Hd.
  apply fmap_Some in Hd as (kv & Hkv & ->).
  rewrite (Forall_lookup_1 _ _ _ _ Hall Hkv).
  rewrite !elem_of_cons, elem_of_nil. intuition discriminate.
Qed.

Lemma setup_all_Pediatrics :
  Forall (λ kv : string * Doctor, specialization kv.2 = "Pediatrics")
         (doctors (QueueManagementSystem_init 50 (frozen_world 0 1)).1).
Proof. vm_compute. repeat constructor. Qed.

Lemma main_raises_without_suitable_doctor_witness :
  ∃ w', main (frozen_world 0 1) = (([], Raise ValueError), w')
        ∧ outbox w' = outbox (frozen_world 0 1).
Proof.
  exact (main_raises_without_suitable_doctor (frozen_world 0 1)
           (no_suitable_of_all_Pediatrics _ setup_all_Pediatrics)).
Defined.
